(** * scanner.go: firmware extraction from nv-kernel.o

    A shallow embedding of [scanner.go] and the properties of its
    payload classifier ([Processor.Process]), its relocation reader
    ([ParseRelocations]) and the boundary segmentation done in [main].

    Conventions:
    - Go's fixed-width integers are [Z] values; every operation that can
      leave the range writes its wrap-around out ([int32_of], [int64_of]).
      [int] is taken to be 64 bits wide (the tool reads 64-bit ELF objects).
    - a [[]byte] is a Go slice: the window of its backing array that starts
      at the slice's first byte and runs to its capacity, with a length.
    - the operating system is a parameter: an abstract [World], the calls
      [os.Mkdir] and [ioutil.WriteFile] acting on it, and [path.Join]. The
      calls a run issues are logged in order.
    - a panic ends the run; what was written before it stays written. *)

From stdpp Require Import base numbers list strings gmap sorting pretty.
From Stdlib Require Import ZArith Lia HexadecimalString.
From Stdlib.Strings Require Import Byte Ascii.

Local Open Scope Z_scope.

(** ** Fixed-width integers *)

Module Int.

Definition int32_of (x : Z) : Z := (x + 2 ^ 31) `mod` 2 ^ 32 - 2 ^ 31.
Definition int64_of (x : Z) : Z := (x + 2 ^ 63) `mod` 2 ^ 64 - 2 ^ 63.
Definition uint64_of (x : Z) : Z := x `mod` 2 ^ 64.

Definition is_int32 (x : Z) : Prop := - 2 ^ 31 <= x < 2 ^ 31.
Definition is_int64 (x : Z) : Prop := - 2 ^ 63 <= x < 2 ^ 63.

Definition max_int64 : Z := 2 ^ 63 - 1.

(** [a + b] on int32, [a - b] on int64, [n++] on int. *)
Definition add32 (a b : Z) : Z := int32_of (a + b).
Definition sub64 (a b : Z) : Z := int64_of (a - b).
Definition incr (n : Z) : Z := int64_of (n + 1).

End Int.

(** ** encoding/binary *)

Module Binary.

Inductive ByteOrder := LittleEndian | BigEndian.

Definition u8 (b : byte) : Z := Z.of_N (Byte.to_N b).

(** [binary.LittleEndian.Uint32] and [Uint64], and the big-endian ones:
    the bytes ored together, each shifted to its place. *)
Fixpoint le_uint (bs : list byte) : Z :=
  match bs with
  | [] => 0
  | b :: bs' => Z.lor (u8 b) (Z.shiftl (le_uint bs') 8)
  end.

Definition be_uint (bs : list byte) : Z := le_uint (reverse bs).

Definition uint_of (o : ByteOrder) (bs : list byte) : Z :=
  match o with LittleEndian => le_uint bs | BigEndian => be_uint bs end.

Definition int32_at (o : ByteOrder) (bs : list byte) : Z :=
  Int.int32_of (uint_of o bs).
Definition int64_at (o : ByteOrder) (bs : list byte) : Z :=
  Int.int64_of (uint_of o bs).

End Binary.

(** ** Slices and readers *)

(** A [[]byte]: [shown] are the bytes the slice shows, [len] of them;
    [spare] are the bytes of the backing array after them, up to the
    capacity. *)
Record slice := Slice { shown : list byte; spare : list byte }.

Definition len (s : slice) : nat := length (shown s).
Definition cap (s : slice) : nat := (length (shown s) + length (spare s))%nat.
Definition arr (s : slice) : list byte := shown s ++ spare s.
Definition bytes_of (s : slice) : list byte := shown s.

(** A slice whose capacity is its length. *)
Definition exact (bs : list byte) : slice := Slice bs [].

(** [s[lo:hi]]; in range when [0 <= lo <= hi <= cap(s)] (for a slice the
    upper limit is the capacity, not the length), [None] is the run-time
    panic. The result shares the backing array. *)
Definition reslice (s : slice) (lo hi : Z) : option slice :=
  if bool_decide (0 <= lo ∧ lo <= hi ∧ hi <= Z.of_nat (cap s))
  then Some (Slice (take (Z.to_nat (hi - lo)) (drop (Z.to_nat lo) (arr s)))
                   (drop (Z.to_nat hi) (arr s)))
  else None.

(** [bytes.Reader]: the bytes not read yet. *)
Definition Reader := list byte.

Definition NewReader (s : slice) : Reader := bytes_of s.

(** [io.ReadFull] of [n] bytes as [binary.Read] does it: all [n] bytes and
    the advanced reader, or an error (the reader is then at its end or
    short of it; nothing in this program reads from it afterwards with
    success). *)
Definition read_full (n : nat) (r : Reader) : option (list byte * Reader) :=
  if decide (n <= length r)%nat then Some (take n r, drop n r) else None.

(** ** fmt *)

Module Fmt.

Fixpoint zeros (n : nat) : string :=
  match n with O => EmptyString | S k => String "0"%char (zeros k) end.

(** Left-pad with zeros up to width [w]. *)
Definition pad0 (w : nat) (digits : string) : string :=
  zeros (w - String.length digits) +:+ digits.

(** [%d]: the decimal digits, with a minus sign when negative. *)
Definition d (n : Z) : string := pretty n.

(** [%0wd]: zero padding goes between the sign and the digits, and the sign
    counts in the width. *)
Definition d0 (w : nat) (n : Z) : string :=
  if bool_decide (n < 0) then "-" +:+ pad0 (w - 1) (pretty (- n))
  else pad0 w (pretty n).

End Fmt.


(** ** Panics and results *)

Definition error := string.

Inductive panic :=
| PanicError (e : error)        (* must(err), panic(fmt.Errorf(...)) *)
| PanicMakeSlice                (* make([]T, n) with n < 0 *)
| PanicSliceBounds              (* s[lo:hi] out of range *)
| PanicIndex                    (* a[i] out of range *)
| PanicNil.                     (* nil pointer dereference *)

Inductive outcome (A : Type) :=
| Done (a : A)
| Panic (p : panic).
Arguments Done {A} a.
Arguments Panic {A} p.

(** ** The program's data *)

(** [names]: section id to name, from nvgpu's gr_ctx_gk20a.h. *)
Definition names_table : list (Z * string) :=
  [ (0, "fecs_data"); (1, "fecs_inst"); (2, "gpccs_data"); (3, "gpccs_inst");
    (4, "sw_bundle_init"); (5, "sw_ctx"); (6, "sw_nonctx");
    (7, "sw_method_init"); (8, "ctxreg_sys"); (9, "ctxreg_gpc");
    (10, "ctxreg_tpc"); (11, "ctxreg_zcull_gpc"); (12, "ctxreg_pm_sys");
    (13, "ctxreg_pm_gpc"); (14, "ctxreg_pm_tpc"); (15, "majorv");
    (16, "buffer_size"); (17, "ctxsw_reg_base_index"); (18, "netlist_num");
    (19, "ctxreg_ppc"); (20, "ctxreg_pmppc"); (21, "nvperf_ctxreg_sys");
    (22, "nvperf_fbp_ctxregs"); (23, "nvperf_ctxreg_gpc");
    (24, "nvperf_fbp_router"); (25, "nvperf_gpc_router"); (26, "ctxreg_pmltc");
    (27, "ctxreg_pmfbpa"); (28, "swveidbundleinit"); (29, "nvperf_sys_router");
    (30, "nvperf_pma"); (31, "ctxreg_pmrop"); (32, "ctxreg_pmucgpc");
    (33, "ctxreg_etpc"); (34, "sw_bundle64_init"); (35, "nvperf_pmcau") ].

Definition names : gmap Z string := list_to_map names_table.

(** [names[id]]: a missing key reads as the empty string. *)
Definition names_at (id : Z) : string := default EmptyString (names !! id).

Record Processor := mkProcessor {
  Destdir : string;
  archiveCounter : Z;
  wholeCounter : Z
}.

Record ArchiveHeader := mkHeader { Magic : Z; Count : Z }.
Record ArchiveEntry := mkEntry { Id : Z; Length : Z; Offset : Z }.

Definition zero_header : ArchiveHeader := mkHeader 0 0.
Definition zero_entry : ArchiveEntry := mkEntry 0 0 0.

(** [binary.Read(r, binary.LittleEndian, &v)] for the two structs: the
    fields in order, four bytes each. *)
Definition field (k : nat) (bs : list byte) : Z :=
  Binary.int32_at Binary.LittleEndian (take 4 (drop (4 * k) bs)).

Definition decode_header (bs : list byte) : ArchiveHeader :=
  mkHeader (field 0 bs) (field 1 bs).
Definition decode_entry (bs : list byte) : ArchiveEntry :=
  mkEntry (field 0 bs) (field 1 bs) (field 2 bs).

Definition Read_header (r : Reader) : option (ArchiveHeader * Reader) :=
  prod_map decode_header id <$> read_full 8 r.
Definition Read_entry (r : Reader) : option (ArchiveEntry * Reader) :=
  prod_map decode_entry id <$> read_full 12 r.

(** ** debug/elf, as far as the program looks into it *)

Module elf.

Definition STT_SECTION : Z := 3.

(** A symbol's [Info] byte and the index of the section it belongs to. *)
Record Symbol := mkSymbol { Info : Z; Section : Z }.

(** A section: its name and what [Data()] returns for it. *)
Record SectionT := mkSection { Name : string; Data : error + slice }.

(** An open file. [Symbols] is what [f.Symbols()] returns: the symbol table
    without the null symbol, so that symbol number [n] is at index [n-1]. *)
Record File := mkFile {
  ByteOrder : Binary.ByteOrder;
  Sections : list SectionT;
  Symbols : error + list Symbol
}.

(** [f.Section(name)]: the first section with that name, or nil. *)
Definition Section_by_name (f : File) (name : string) : option SectionT :=
  snd <$> list_find (λ s, Name s = name) (Sections f).

(** [elf.Rela64]: [Off], [Info] (both uint64) and [Addend] (int64). *)
Record Rela64 := mkRela64 { r_Off : Z; r_Info : Z; r_Addend : Z }.

Definition decode_Rela64 (o : Binary.ByteOrder) (bs : list byte) : Rela64 :=
  mkRela64 (Binary.uint_of o (take 8 bs))
           (Binary.uint_of o (take 8 (drop 8 bs)))
           (Binary.int64_at o (take 8 (drop 16 bs))).

End elf.

(** [a[i]] with a run-time index: in range when [0 <= i < len(a)]. *)
Definition index {A} (a : list A) (i : Z) : option A :=
  if bool_decide (0 <= i) then a !! Z.to_nat i else None.

(** [fmt.Errorf("Unexpected length for %s: %x\n", relSection, len(rels))] *)
Definition unexpected_length (relSection : string) (n : nat) : error :=
  "Unexpected length for " +:+ relSection +:+ ": "
  +:+ HexadecimalString.NilZero.string_of_uint (N.to_hex_uint (N.of_nat n))
  +:+ String "010"%char EmptyString.

(** The loop of [ParseRelocations]: [for b.Len() > 0 { ... }]. Each turn
    takes one 24-byte record off the reader [b]; [fuel] bounds the number of
    turns and [length b] is always enough ([rela_loop_fuel]). *)
Fixpoint rela_loop (fuel : nat) (f : elf.File) (symbols : list elf.Symbol)
    (section : string) (b : Reader) (offsets : list Z) : outcome (list Z) :=
  match fuel with
  | O => Done offsets
  | S fuel' =>
    if bool_decide (0 < length b)%nat then
      match read_full 24 b with
      | None => Panic (PanicError "unexpected EOF")
      | Some (rec, b') =>
        let rela := elf.decode_Rela64 (elf.ByteOrder f) rec in
        let symNo := Z.shiftr (elf.r_Info rela) 32 in
        match index symbols (Int.uint64_of (symNo - 1)) with
        | None => Panic PanicIndex
        | Some sym =>
          if bool_decide (Z.land (elf.Info sym) 15 ≠ elf.STT_SECTION)
          then rela_loop fuel' f symbols section b' offsets
          else
            match index (elf.Sections f) (elf.Section sym) with
            | None => Panic PanicIndex
            | Some s =>
              if bool_decide (elf.Name s ≠ section)
              then rela_loop fuel' f symbols section b' offsets
              else rela_loop fuel' f symbols section b'
                     (offsets ++ [elf.r_Addend rela])
            end
        end
      end
    else Done offsets
  end.

Definition ParseRelocations (f : elf.File) (relSection section : string)
    : outcome (list Z) :=
  match elf.Section_by_name f relSection with
  | None => Panic PanicNil
  | Some relsS =>
    match elf.Data relsS with
    | inl err => Panic (PanicError err)
    | inr rels =>
      if bool_decide ((len rels `mod` 24)%nat ≠ 0%nat)
      then Panic (PanicError (unexpected_length relSection (len rels)))
      else
        match elf.Symbols f with
        | inl err => Panic (PanicError err)
        | inr symbols =>
          rela_loop (len rels) f symbols section (NewReader rels) []
        end
    end
  end.

(** ** The host: file system, path and flate libraries *)

Class Host := {
  World : Type;
  (** [os.Mkdir(name, perm)]; the program drops its result. *)
  os_Mkdir : string → Z → World → World;
  (** [ioutil.WriteFile(name, data, perm)] and its error, if any. *)
  ioutil_WriteFile : string → list byte → Z → World → World * option error;
  (** [path.Join(dir, name)]. *)
  path_Join : string → string → string;
  (** [elf.Open(name)]. *)
  elf_Open : string → World → error + elf.File;
  (** [ioutil.ReadAll(flate.NewReader(bytes.NewReader(b)))]: the inflated
      bytes in a slice of some capacity, or the decoder's error. *)
  flate_ReadAll : list byte → error + slice
}.

(** The calls that leave a trace on disk, as issued. *)
Inductive call :=
| Mkdir (name : string) (perm : Z)
| WriteFile (name : string) (data : list byte) (perm : Z).

Section Program.
Context `{Host}.

(** What a run changes: the world, the log of calls issued so far, and the
    [Processor] that [p] points to. *)
Record state := mkState {
  world : World;
  calls : list call;
  proc : Processor
}.

Definition M (A : Type) : Type := state → outcome A * state.

Definition ret {A} (a : A) : M A := λ st, (Done a, st).
Definition bind {A B} (m : M A) (k : A → M B) : M B :=
  λ st, match m st with
        | (Done a, st') => k a st'
        | (Panic p, st') => (Panic p, st')
        end.
Definition throw {A} (p : panic) : M A := λ st, (Panic p, st).

Notation "x <- m ;; k" := (bind m (λ x, k))
  (at level 20, m at level 99, k at level 200, only parsing).
Notation "'run' m ;; k" := (bind m (λ _, k))
  (at level 20, m at level 99, k at level 200, only parsing).

Definition get_proc : M Processor := λ st, (Done (proc st), st).
Definition set_proc (p : Processor) : M unit :=
  λ st, (Done (), mkState (world st) (calls st) p).

Definition Mkdir_ (name : string) (perm : Z) : M unit :=
  λ st, (Done (), mkState (os_Mkdir name perm (world st))
                          (calls st ++ [Mkdir name perm]) (proc st)).

Definition WriteFile_ (name : string) (data : slice) (perm : Z)
    : M (option error) :=
  λ st, let '(w, err) := ioutil_WriteFile name (bytes_of data) perm (world st) in
        (Done err, mkState w (calls st ++ [WriteFile name (bytes_of data) perm])
                           (proc st)).

Definition must (err : option error) : M unit :=
  match err with Some e => throw (PanicError e) | None => ret () end.

Definition from_option {A} (p : panic) (o : option A) : M A :=
  match o with Some a => ret a | None => throw p end.

(** [make([]ArchiveEntry, n)] *)
Definition make_entries (n : Z) : M (list ArchiveEntry) :=
  if bool_decide (n < 0) then throw PanicMakeSlice
  else ret (replicate (Z.to_nat n) zero_entry).

(** The entry-parsing loop of [Process], over the indices still to visit.
    [None] is the [return] inside the loop. *)
Fixpoint parse_entries (minOffset : Z) (indices : list nat)
    (entries : list ArchiveEntry) (dataReader : Reader)
    : option (list ArchiveEntry) :=
  match indices with
  | [] => Some entries
  | i :: rest =>
    match Read_entry dataReader with
    | None => None
    | Some (e, dataReader') =>
      if bool_decide (Offset e < minOffset) then None
      else parse_entries minOffset rest (<[i := e]> entries) dataReader'
    end
  end.

(** The name an entry's file gets. *)
Definition entry_name (entry : ArchiveEntry) : string :=
  let name := names_at (Id entry) in
  if bool_decide (name = EmptyString) then "unk" +:+ Fmt.d (Id entry) else name.

(** The file-writing loop of [Process]. *)
Fixpoint write_entries (archbase : string) (data : slice)
    (entries : list ArchiveEntry) : M unit :=
  match entries with
  | [] => ret ()
  | entry :: rest =>
    let fname := path_Join archbase (entry_name entry) in
    part <- from_option PanicSliceBounds
              (reslice data (Offset entry)
                 (Int.add32 (Offset entry) (Length entry))) ;;
    err <- WriteFile_ fname part 438 ;;
    run must err ;;
    write_entries archbase data rest
  end.

Definition Process (data : slice) : M unit :=
  let '(header, dataReader) :=
    default (zero_header, []) (Read_header (NewReader data)) in
  if bool_decide (Z.of_nat (len data) < 32768 ∨ Magic header ≠ 0
                  ∨ Count header > 64) then
    if bool_decide (Z.of_nat (len data) < 128) then ret ()
    else
      p <- get_proc ;;
      let fname := path_Join (Destdir p) ("whole_" +:+ Fmt.d0 3 (wholeCounter p)) in
      err <- WriteFile_ fname data 438 ;;
      run must err ;;
      p <- get_proc ;;
      set_proc (mkProcessor (Destdir p) (archiveCounter p)
                            (Int.incr (wholeCounter p)))
  else
    entries <- make_entries (Count header) ;;
    let minOffset := Int.int32_of (8 + 12 * Z.of_nat (length entries)) in
    match parse_entries minOffset (seq 0 (length entries)) entries dataReader with
    | None => ret ()
    | Some entries =>
      if bool_decide (length entries = 0%nat) then ret ()
      else
        p <- get_proc ;;
        let archbase :=
          path_Join (Destdir p) ("archive_" +:+ Fmt.d0 2 (archiveCounter p)) in
        run Mkdir_ archbase 511 ;;
        run write_entries archbase data entries ;;
        p <- get_proc ;;
        set_proc (mkProcessor (Destdir p) (Int.incr (archiveCounter p))
                              (wholeCounter p))
    end.

(** The [Process] calls of a run, in order, on the one [Processor]. *)
Fixpoint process_all (payloads : list slice) : M unit :=
  match payloads with
  | [] => ret ()
  | data :: rest => run Process data ;; process_all rest
  end.

(** [prev] in the loop of [main]: zero on the first turn, [offsets[i-1]]
    afterwards. *)
Definition prev_of (offsets : list Z) (i : nat) : option Z :=
  if bool_decide (0 < i)%nat then offsets !! (i - 1)%nat else Some 0.

(** The loop of [main] over the sorted offsets: [rest] is what is left of
    [offsets] from position [i] on. *)
Fixpoint segment_loop (rodata : slice) (offsets : list Z) (i : nat)
    (rest : list Z) : M unit :=
  match rest with
  | [] => ret ()
  | off :: rest' =>
    prev <- from_option PanicIndex (prev_of offsets i) ;;
    if bool_decide (Int.sub64 off prev < 32)
    then segment_loop rodata offsets (S i) rest'
    else
      seg <- from_option PanicSliceBounds (reslice rodata prev off) ;;
      match flate_ReadAll (bytes_of seg) with
      | inl _ => segment_loop rodata offsets (S i) rest'
      | inr data =>
        run Process data ;;
        segment_loop rodata offsets (S i) rest'
      end
  end.

(** One turn of that loop for a range that passed the test, and a loop that
    takes the ranges from a list. *)
Definition process_segment (rodata : slice) (r : Z * Z) : M unit :=
  seg <- from_option PanicSliceBounds (reslice rodata r.1 r.2) ;;
  match flate_ReadAll (bytes_of seg) with
  | inl _ => ret ()
  | inr data => Process data
  end.

Fixpoint for_each {A} (body : A → M unit) (l : list A) : M unit :=
  match l with
  | [] => ret ()
  | x :: rest => run body x ;; for_each body rest
  end.

(** The payloads that come out of the ranges: those that can be sliced and
    inflated. *)
Definition payloads_of (rodata : slice) (ranges : list (Z * Z)) : list slice :=
  omap (λ r : Z * Z,
          seg ← reslice rodata r.1 r.2;
          match flate_ReadAll (bytes_of seg) with
          | inl _ => None
          | inr data => Some data
          end) ranges.

Definition Open_ (name : string) : M elf.File :=
  λ st, match elf_Open name (world st) with
        | inl e => (Panic (PanicError e), st)
        | inr f => (Done f, st)
        end.

Definition lift {A} (o : outcome A) : M A := λ st, (o, st).

Definition must_data {A} (r : error + A) : M A :=
  match r with inl e => throw (PanicError e) | inr a => ret a end.

(** [sort.Slice(offsets, func(a, b) { return offsets[a] < offsets[b] })]:
    the offsets in ascending order. *)
Definition sort_Slice (offsets : list Z) : list Z := merge_sort Z.le offsets.

Definition main (Args : list string) : M unit :=
  kernel_f <- from_option PanicIndex (Args !! 1%nat) ;;
  f <- Open_ kernel_f ;;
  destdir <- from_option PanicIndex (Args !! 2%nat) ;;
  rodataS <- from_option PanicNil (elf.Section_by_name f ".rodata") ;;
  rodata <- must_data (elf.Data rodataS) ;;
  offsets <- lift (ParseRelocations f ".rela.rodata" ".rodata") ;;
  let offsets := offsets ++ [Z.of_nat (len rodata)] in
  let offsets := sort_Slice offsets in
  run set_proc (mkProcessor destdir 0 0) ;;
  segment_loop rodata offsets 0 offsets.

End Program.

(** ** Boundary segmentation, as a function of the sorted offsets *)

(** The pairs [(prev, off)] the loop of [main] looks at, in order. *)
Definition candidates (offsets : list Z) : list (Z * Z) :=
  imap (λ i off, (default 0 (prev_of offsets i), off)) offsets.

(** The test the loop makes before it slices: not [off - prev < 32]. *)
Definition long_enough (r : Z * Z) : bool :=
  bool_decide (¬ Int.sub64 r.2 r.1 < 32).

(** The ranges that get past the test. *)
Definition segments (offsets : list Z) : list (Z * Z) :=
  filter (λ r, long_enough r = true) (candidates offsets).

(** From the relocation offsets and the section's length to the ranges. *)
Definition Segmenter (relocs : list Z) (sectionLen : Z) : list (Z * Z) :=
  segments (sort_Slice (relocs ++ [sectionLen])).

(** The same in the spec's words: the ranges between neighbours of the
    sorted offsets, the first one starting at zero; their lengths; the
    bytes they hold. *)
Definition consecutive_ranges (offsets : list Z) : list (Z * Z) :=
  zip (0 :: offsets) offsets.



(** ** A host to run examples on: files in memory, every call succeeds *)

Definition mem_Join (dir name : string) : string := dir +:+ "/" +:+ name.

Definition mem_host : Host :=
  {| World := gmap string (list byte);
     os_Mkdir := λ _ _ w, w;
     ioutil_WriteFile := λ name data _ w, (<[name := data]> w, None);
     path_Join := mem_Join;
     elf_Open := λ _ _, inl "not an object file"%string;
     flate_ReadAll := λ b, inr (exact b) |}.

Definition start (dest : string) : @state mem_host :=
  @mkState mem_host ∅ [] (mkProcessor dest 0 0).

(** ** Kinds of payload *)

(** The header as [Process] sees it: decoded from the first eight bytes,
    all zero when the payload has fewer. *)
Definition header_of (data : slice) : ArchiveHeader :=
  default zero_header (fst <$> Read_header (NewReader data)).

(** Entry number [i] of the table that follows the header. *)
Definition entry_at (data : slice) (i : nat) : ArchiveEntry :=
  decode_entry (take 12 (drop (8 + 12 * i) (bytes_of data))).

Definition entries_of (data : slice) (count : nat) : list ArchiveEntry :=
  entry_at data <$> seq 0 count.

(** The probe: large enough, magic zero, at most 64 entries. *)
Definition probes_as_archive (data : slice) : Prop :=
  32768 <= Z.of_nat (len data) ∧ Magic (header_of data) = 0
  ∧ Count (header_of data) <= 64.

(** Entry [i] is short of bytes, or points into the header and table. *)
Definition entry_rejected (data : slice) (i : nat) : Prop :=
  (len data < 8 + 12 * (i + 1))%nat
  ∨ Offset (entry_at data i) < 8 + 12 * Count (header_of data).

Definition some_entry_rejected (data : slice) : Prop :=
  ∃ i : nat, Z.of_nat i < Count (header_of data) ∧ entry_rejected data i.

(** A payload that ends up as an archive directory. *)
Definition accepted_archive (data : slice) : Prop :=
  probes_as_archive data ∧ 0 < Count (header_of data)
  ∧ ¬ some_entry_rejected data.

(** A payload that [Process] turns down: an entry of its table is rejected,
    its table is empty, or it is not an archive and has fewer than 128
    bytes. *)
Definition rejected (data : slice) : Prop :=
  (probes_as_archive data ∧ some_entry_rejected data)
  ∨ (probes_as_archive data ∧ Count (header_of data) = 0)
  ∨ (¬ probes_as_archive data ∧ Z.of_nat (len data) < 128).

(** A payload that ends up as a whole-blob file. *)
Definition written_whole (data : slice) : Prop :=
  ¬ probes_as_archive data ∧ 128 <= Z.of_nat (len data).

Global Instance probes_as_archive_dec data : Decision (probes_as_archive data).
Proof. unfold probes_as_archive. apply _. Defined.

Global Instance entry_rejected_dec data i : Decision (entry_rejected data i).
Proof. unfold entry_rejected. apply _. Defined.

Lemma some_entry_rejected_Exists data :
  some_entry_rejected data
  ↔ Exists (entry_rejected data) (seq 0 (Z.to_nat (Count (header_of data)))).
Proof.
  unfold some_entry_rejected. rewrite Exists_exists. split.
  - intros (i & Hi & Hrej). exists i. split; [|done]. apply elem_of_seq. lia.
  - intros (i & Hi%elem_of_seq & Hrej). exists i. split; [lia|done].
Qed.

Global Instance some_entry_rejected_dec data :
  Decision (some_entry_rejected data).
Proof.
  refine (cast_if (decide (Exists (entry_rejected data)
                             (seq 0 (Z.to_nat (Count (header_of data)))))));
    by rewrite some_entry_rejected_Exists.
Defined.

(** The probe is decided first, so that the entry table is only looked at
    when the count is at most 64. *)
Global Instance accepted_archive_dec data : Decision (accepted_archive data).
Proof.
  refine (match decide (probes_as_archive data) with
          | left Hprobe =>
            cast_if_and (decide (0 < Count (header_of data)))
                        (decide (¬ some_entry_rejected data))
          | right Hprobe => right _
          end); unfold accepted_archive; tauto.
Defined.

Global Instance written_whole_dec data : Decision (written_whole data).
Proof. unfold written_whole. apply _. Defined.


(** Entry [e] lies within the payload. *)
Definition in_bounds (data : slice) (e : ArchiveEntry) : Prop :=
  0 <= Offset e ∧ 0 <= Length e
  ∧ Offset e + Length e <= Z.of_nat (len data).

(** The slice expression [data[e.Offset : e.Offset+e.Length]] is in range:
    the sum is an int32 sum and the upper limit is the capacity. *)
Definition part_in_range (data : slice) (e : ArchiveEntry) : Prop :=
  0 <= Offset e
  ∧ Offset e <= Int.add32 (Offset e) (Length e)
  ∧ Int.add32 (Offset e) (Length e) <= Z.of_nat (cap data).

(** The same in the terms of the entry's fields: the length is not
    negative and [offset + length] exceeds neither the capacity nor int32. *)
Definition fits_capacity (data : slice) (e : ArchiveEntry) : Prop :=
  0 <= Length e ∧ Offset e + Length e <= Z.of_nat (cap data)
  ∧ Offset e + Length e < 2 ^ 31.

(** The bytes that slice expression shows: they come from the backing
    array, and from beyond the payload when the range runs past its end. *)
Definition slice_bytes (data : slice) (e : ArchiveEntry) : list byte :=
  take (Z.to_nat (Int.add32 (Offset e) (Length e) - Offset e))
       (drop (Z.to_nat (Offset e)) (arr data)).

(** Entry [j] counted from the reader's position. *)
Definition entry_from (r : Reader) (j : nat) : ArchiveEntry :=
  decode_entry (drop (12 * j) r).

(** The directories a log makes, in order. *)
Definition dirs_made (cs : list call) : list string :=
  omap (λ c, match c with Mkdir name _ => Some name | _ => None end) cs.

Global Instance in_bounds_dec data e : Decision (in_bounds data e).
Proof. unfold in_bounds. apply _. Defined.

Global Instance part_in_range_dec data e : Decision (part_in_range data e).
Proof. unfold part_in_range. apply _. Defined.

Global Instance fits_capacity_dec data e : Decision (fits_capacity data e).
Proof. unfold fits_capacity. apply _. Defined.

Global Instance rejected_dec data : Decision (rejected data).
Proof.
  refine (match decide (probes_as_archive data) with
          | left Hprobe =>
            cast_if_or (decide (some_entry_rejected data))
                       (decide (Count (header_of data) = 0))
          | right Hprobe => cast_if (decide (Z.of_nat (len data) < 128))
          end); unfold rejected; tauto.
Defined.

Section Observations.
Context `{Host}.
Implicit Types (st : state) (data : slice).

(** Replaying logged calls on a world: does every write succeed, and what
    world is left. *)
Fixpoint accepts (w : World) (cs : list call) : bool :=
  match cs with
  | [] => true
  | Mkdir name perm :: cs' => accepts (os_Mkdir name perm w) cs'
  | WriteFile name data perm :: cs' =>
    match ioutil_WriteFile name data perm w with
    | (w', None) => accepts w' cs'
    | (_, Some _) => false
    end
  end.

Fixpoint after (w : World) (cs : list call) : World :=
  match cs with
  | [] => w
  | Mkdir name perm :: cs' => after (os_Mkdir name perm w) cs'
  | WriteFile name data perm :: cs' =>
    after (ioutil_WriteFile name data perm w).1 cs'
  end.

(** The state after the calls [cs] went through and [p] was stored. *)
Definition advance (st : state) (cs : list call) (p : Processor) : state :=
  mkState (after (world st) cs) (calls st ++ cs) p.

Definition archive_dir (p : Processor) : string :=
  path_Join (Destdir p) ("archive_" +:+ Fmt.d0 2 (archiveCounter p)).
Definition whole_file (p : Processor) : string :=
  path_Join (Destdir p) ("whole_" +:+ Fmt.d0 3 (wholeCounter p)).

(** Directory number [k] and whole-blob file number [k] under [dest]. *)
Definition archive_name (dest : string) (k : nat) : string :=
  path_Join dest ("archive_" +:+ Fmt.d0 2 (Z.of_nat k)).
Definition whole_name (dest : string) (k : nat) : string :=
  path_Join dest ("whole_" +:+ Fmt.d0 3 (Z.of_nat k)).

(** The call that writes entry [e] of [data] under [archbase]. *)
Definition entry_write (archbase : string) (data : slice) (e : ArchiveEntry)
    : call :=
  WriteFile (path_Join archbase (entry_name e)) (slice_bytes data e) 438.

Definition count_archive (p : Processor) : Processor :=
  mkProcessor (Destdir p) (Int.incr (archiveCounter p)) (wholeCounter p).
Definition count_whole (p : Processor) : Processor :=
  mkProcessor (Destdir p) (archiveCounter p) (Int.incr (wholeCounter p)).

(** The dispositions of a payload. Dropped: [Process] returns and nothing
    has changed. Written whole: one file, named by the whole-blob counter,
    holding the payload, and the counter stepped. *)
Definition dropped st data : Prop := Process data st = (Done (), st).

Definition whole_write st data : call :=
  WriteFile (whole_file (proc st)) (bytes_of data) 438.

Definition written_as_whole st data : Prop :=
  Process data st
  = (Done (), advance st [whole_write st data] (count_whole (proc st))).

(** The calls an accepted archive leads to: the directory, then one file
    per entry. *)
Definition archive_calls st data (entries : list ArchiveEntry) : list call :=
  Mkdir (archive_dir (proc st)) 511
  :: (entry_write (archive_dir (proc st)) data <$> entries).

(** The part of [Process] after the entry table has been accepted. *)
Definition emit_archive data (entries : list ArchiveEntry) : M unit :=
  bind get_proc (λ p,
    bind (Mkdir_ (archive_dir p) 511) (λ _,
      bind (write_entries (archive_dir p) data entries) (λ _,
        bind get_proc (λ p, set_proc (count_archive p))))).

End Observations.


(** ** Example payloads *)

Module Examples.

(** A 32-bit value as four bytes, low byte first. *)
Definition le32 (n : Z) : list byte :=
  (λ k, default x00 (Byte.of_N (Z.to_N (((n `mod` 2 ^ 32) / 2 ^ (8 * k)) `mod` 256))))
  <$> [0; 1; 2; 3].

Definition header (magic count : Z) : list byte := le32 magic ++ le32 count.
Definition entry (id length offset : Z) : list byte :=
  le32 id ++ le32 length ++ le32 offset.

(** [front] filled up with zero bytes to [n] bytes. *)
Definition padded (front : list byte) (n : Z) : list byte :=
  front ++ replicate (Z.to_nat n - length front) x00.

(** One entry whose offset, 19, is below 8 + 12*1. *)
Definition bad_offset : slice :=
  exact (padded (header 0 1 ++ entry 7 3 19) 32768).

(** Magic zero and no entries. *)
Definition empty_table : slice := exact (padded (header 0 0) 32768).

(** Magic zero and a count of -1. *)
Definition negative_count : slice := exact (padded (header 0 (-1)) 32768).

(** One entry that ends one byte past the payload: 20 + 32749 = 32769. The
    first payload has no spare capacity, the second has one spare byte. *)
Definition overrun_exact : slice :=
  exact (padded (header 0 1 ++ entry 7 32749 20) 32768).
Definition overrun_spare : slice :=
  Slice (padded (header 0 1 ++ entry 7 32749 20) 32768) [xff].

(** Two entries: id 5 (sw_ctx), 4 bytes at 32, and id 40, 8 bytes at 100. *)
Definition two_entries : slice :=
  exact (padded (header 0 2 ++ entry 5 4 32 ++ entry 40 8 100) 32768).

Definition blob (n : Z) : slice := exact (replicate (Z.to_nat n) x2a).

(** An object file whose relocation section has 25 bytes. *)
Definition odd_file : elf.File :=
  elf.mkFile Binary.LittleEndian
    [elf.mkSection ".rodata" (inr (exact (replicate 64 x00)));
     elf.mkSection ".rela.rodata" (inr (exact (replicate 25 x00)))]
    (inr []).

(** A run of seven payloads: two archives with three payloads between them,
    two of which are rejected, and a dropped blob before the last one. *)
Definition seven : list slice :=
  [two_entries; bad_offset; blob 200; empty_table; two_entries; blob 127;
   blob 128].

(** The state every example starts from, and what a log looks like from
    outside: each call's path, the number of bytes written and the last of
    them. *)
Definition st0 : @state mem_host := start "out".

Definition summary (cs : list call) : list (string * Z * option byte) :=
  (λ c, match c with
        | Mkdir name _ => (name, 0, None)
        | WriteFile name data _ => (name, Z.of_nat (length data), last data)
        end) <$> cs.

End Examples.

(** ** Relocation records, read off the buffer *)

(** Record number [k] of a relocation buffer, and all of them in order. *)
Definition record_at (o : Binary.ByteOrder) (bs : list byte) (k : nat)
    : elf.Rela64 :=
  elf.decode_Rela64 o (take 24 (drop (24 * k) bs)).

Definition records (o : Binary.ByteOrder) (bs : list byte) : list elf.Rela64 :=
  record_at o bs <$> seq 0 (length bs / 24)%nat.

(** The symbol a record names: number [Info >> 32], counted from one. *)
Definition symbol_of (symbols : list elf.Symbol) (r : elf.Rela64)
    : option elf.Symbol :=
  index symbols (Int.uint64_of (Z.shiftr (elf.r_Info r) 32 - 1)).

(** The record points into [section]: its symbol is a section symbol and
    the section it belongs to has that name. *)
Definition targets (f : elf.File) (symbols : list elf.Symbol)
    (section : string) (r : elf.Rela64) : Prop :=
  match symbol_of symbols r with
  | Some sym =>
    Z.land (elf.Info sym) 15 = elf.STT_SECTION
    ∧ elf.Name <$> index (elf.Sections f) (elf.Section sym) = Some section
  | None => False
  end.

(** The record can be looked up: its symbol exists and, for a section
    symbol, so does the section. *)
Definition resolves (f : elf.File) (symbols : list elf.Symbol)
    (r : elf.Rela64) : Prop :=
  match symbol_of symbols r with
  | Some sym =>
    Z.land (elf.Info sym) 15 = elf.STT_SECTION →
    is_Some (index (elf.Sections f) (elf.Section sym))
  | None => False
  end.

Global Instance targets_dec f symbols section r :
  Decision (targets f symbols section r).
Proof. unfold targets. destruct (symbol_of symbols r); apply _. Defined.

Global Instance resolves_dec f symbols r : Decision (resolves f symbols r).
Proof. unfold resolves. destruct (symbol_of symbols r); apply _. Defined.

(** ** Example object files *)

Module Objects.

(** A 64-bit value as eight bytes, low byte first, and a relocation record
    for symbol number [symNo] with the given type and addend. *)
Definition le64 (n : Z) : list byte :=
  (λ k, default x00 (Byte.of_N (Z.to_N (((n `mod` 2 ^ 64) / 2 ^ (8 * k)) `mod` 256))))
  <$> [0; 1; 2; 3; 4; 5; 6; 7].

Definition rela (off symNo type addend : Z) : list byte :=
  le64 off ++ le64 (symNo * 2 ^ 32 + type) ++ le64 addend.

(** Three symbols: the section symbols of [.rodata] and [.text] and a
    function in [.text]. *)
Definition symtab : list elf.Symbol :=
  [elf.mkSymbol 3 1; elf.mkSymbol 3 0; elf.mkSymbol 2 0].

(** Five relocations: into [.rodata] at 150, into [.text], against the
    function, into [.rodata] at 0 and at 150 again. *)
Definition relocations : list byte :=
  rela 0 1 1 150 ++ rela 8 2 1 7 ++ rela 16 3 1 9 ++ rela 24 1 1 0
  ++ rela 32 1 1 150.

Definition kernel (rels : list byte) : elf.File :=
  elf.mkFile Binary.LittleEndian
    [elf.mkSection ".text" (inr (exact (replicate 16 x90)));
     elf.mkSection ".rodata" (inr (exact (replicate 300 x2a)));
     elf.mkSection ".rela.rodata" (inr (exact rels))]
    (inr symtab).

Definition good_kernel : elf.File := kernel relocations.

(** The same with a first record that names symbol number zero. *)
Definition bad_kernel : elf.File := kernel (rela 0 0 1 150 ++ relocations).

(** A host like [mem_host] on which [elf.Open] yields [f]. *)
Definition obj_host (f : elf.File) : Host :=
  {| World := gmap string (list byte);
     os_Mkdir := λ _ _ w, w;
     ioutil_WriteFile := λ name data _ w, (<[name := data]> w, None);
     path_Join := mem_Join;
     elf_Open := λ _ _, inr f;
     flate_ReadAll := λ b, inr (exact b) |}.

Definition boot (f : elf.File) : @state (obj_host f) :=
  @mkState (obj_host f) ∅ [] (mkProcessor EmptyString 7 7).

End Objects.


(** ** More example payloads, and a disk that runs full *)

Module Faults.
Import Examples.

(** The world is the number of writes the disk still takes; the next one
    fails. *)
Definition full_host : Host :=
  {| World := nat;
     os_Mkdir := λ _ _ w, w;
     ioutil_WriteFile := λ _ _ _ w,
       match w with
       | O => (O, Some "no space left on device"%string)
       | S k => (k, None)
       end;
     path_Join := mem_Join;
     elf_Open := λ _ _, inl "not an object file"%string;
     flate_ReadAll := λ b, inr (exact b) |}.

Definition room (writes : nat) : @state full_host :=
  @mkState full_host writes [] (mkProcessor "out" 0 0).

(** Two entries, the second of which ends five bytes past the payload. *)
Definition second_overruns : slice :=
  exact (padded (header 0 2 ++ entry 5 4 32 ++ entry 40 8 32765) 32768).

(** 200 bytes that start like an archive with one good entry. *)
Definition short_archive : slice :=
  exact (padded (header 0 1 ++ entry 7 3 20) 200).

(** [two_entries] with another last byte. *)
Definition other_tail : slice :=
  exact (take (Z.to_nat 32767) (bytes_of two_entries) ++ [xff]).

(** The bytes of [blob 200] in a slice with one spare byte. *)
Definition roomy_blob : slice := Slice (replicate 200 x2a) [xff].

(** A host on which [elf.Open] yields [f] and nothing inflates. *)
Definition garbled_host (f : elf.File) : Host :=
  {| World := gmap string (list byte);
     os_Mkdir := λ _ _ w, w;
     ioutil_WriteFile := λ name data _ w, (<[name := data]> w, None);
     path_Join := mem_Join;
     elf_Open := λ _ _, inr f;
     flate_ReadAll := λ _, inl "flate: corrupt input before offset 1"%string |}.

Definition garbled (f : elf.File) : @state (garbled_host f) :=
  @mkState (garbled_host f) ∅ [] (mkProcessor EmptyString 7 7).

(** The command line of the examples. *)
Definition Args : list string := ["scanner"; "nv-kernel.o"; "out"].

End Faults.
(** * Properties *)

(** ** Integers *)

Lemma int32_of_range x : Int.is_int32 (Int.int32_of x).
Proof.
  unfold Int.is_int32, Int.int32_of.
  pose proof (Z.mod_pos_bound (x + 2 ^ 31) (2 ^ 32)). lia.
Qed.

Lemma int32_of_id x : Int.is_int32 x → Int.int32_of x = x.
Proof.
  unfold Int.is_int32, Int.int32_of. intros Hx.
  rewrite Z.mod_small by lia. lia.
Qed.

Lemma int64_of_id x : Int.is_int64 x → Int.int64_of x = x.
Proof.
  unfold Int.is_int64, Int.int64_of. intros Hx.
  rewrite Z.mod_small by lia. lia.
Qed.

Lemma incr_succ n : - 2 ^ 63 <= n < Int.max_int64 → Int.incr n = n + 1.
Proof.
  unfold Int.incr, Int.max_int64. intros Hn.
  apply int64_of_id. unfold Int.is_int64. lia.
Qed.


(** [a + b] on int32 for a non-negative [a]: the sum itself while it fits,
    a negative number once it does not. *)
Lemma add32_cases a b :
  0 <= a → Int.is_int32 a → Int.is_int32 b →
  (a + b < 2 ^ 31 ∧ Int.add32 a b = a + b)
  ∨ (2 ^ 31 <= a + b ∧ Int.add32 a b < 0).
Proof.
  unfold Int.is_int32, Int.add32. intros Ha Ha' Hb.
  destruct (decide (a + b < 2 ^ 31)) as [Hlt|Hge].
  - left. split; [done|]. apply int32_of_id. unfold Int.is_int32. lia.
  - right. split; [lia|]. unfold Int.int32_of.
    replace (a + b + 2 ^ 31) with ((a + b - 2 ^ 31) + 1 * 2 ^ 32) by lia.
    rewrite Z.mod_add by lia. rewrite Z.mod_small by lia. lia.
Qed.

(** ** Reading *)

Lemma read_full_enough n (r : Reader) :
  (n <= length r)%nat → read_full n r = Some (take n r, drop n r).
Proof. intros Hn. unfold read_full. by rewrite decide_True. Qed.

Lemma read_full_short n (r : Reader) :
  (length r < n)%nat → read_full n r = None.
Proof. intros Hn. unfold read_full. rewrite decide_False; [done|lia]. Qed.

Lemma field_take k n bs :
  (4 * k + 4 <= n)%nat → field k (take n bs) = field k bs.
Proof.
  intros Hk. unfold field. f_equal.
  rewrite !take_drop_commute, take_take. do 2 f_equal. lia.
Qed.

Lemma field_range k bs : Int.is_int32 (field k bs).
Proof. apply int32_of_range. Qed.

Lemma decode_entry_take bs : decode_entry (take 12 bs) = decode_entry bs.
Proof. unfold decode_entry. by rewrite !field_take by lia. Qed.

Lemma Read_entry_enough (r : Reader) :
  (12 <= length r)%nat → Read_entry r = Some (decode_entry r, drop 12 r).
Proof.
  intros Hr. unfold Read_entry. rewrite read_full_enough by done.
  simpl. by rewrite decode_entry_take.
Qed.

Lemma header_of_enough data :
  (8 <= len data)%nat →
  Read_header (NewReader data)
  = Some (header_of data, drop 8 (bytes_of data)).
Proof.
  intros Hlen. unfold header_of, Read_header, NewReader.
  rewrite read_full_enough by done. done.
Qed.

Lemma entry_at_range data i :
  Int.is_int32 (Id (entry_at data i)) ∧ Int.is_int32 (Length (entry_at data i))
  ∧ Int.is_int32 (Offset (entry_at data i)).
Proof. unfold entry_at, decode_entry. simpl. auto using field_range. Qed.

(** ** The entry table *)

Lemma entry_from_drop r j : entry_from (drop 12 r) j = entry_from r (S j).
Proof. unfold entry_from. rewrite drop_drop. do 2 f_equal. lia. Qed.

Lemma entry_from_0 r : entry_from r 0 = decode_entry r.
Proof. done. Qed.

Lemma Forall_entries_step (P : ArchiveEntry → Prop) r n :
  Forall (λ j, P (entry_from r j)) (seq 0 (S n))
  ↔ P (decode_entry r) ∧ Forall (λ j, P (entry_from (drop 12 r) j)) (seq 0 n).
Proof.
  cbn [seq]. rewrite Forall_cons, <- fmap_S_seq, Forall_fmap, entry_from_0.
  apply and_iff_compat_l, Forall_proper; [|done].
  intros j. simpl. by rewrite entry_from_drop.
Qed.

(** The parsing loop, read off the bytes: it returns the decoded table when
    every offset is at least [minOffset], and bails out otherwise. *)
Lemma parse_entries_spec minOffset n : ∀ k entries r,
  length entries = (k + n)%nat → (12 * n <= length r)%nat →
  parse_entries minOffset (seq k n) entries r
  = if bool_decide (Forall (λ j, ¬ Offset (entry_from r j) < minOffset) (seq 0 n))
    then Some (take k entries ++ (entry_from r <$> seq 0 n))
    else None.
Proof.
  induction n as [|n IH]; intros k entries r Hlen Hr.
  - cbn [seq parse_entries]. rewrite bool_decide_eq_true_2 by constructor.
    rewrite take_ge by lia. by rewrite app_nil_r.
  - pose proof (Forall_entries_step (λ e, ¬ Offset e < minOffset) r n) as Hstep.
    cbn [seq parse_entries]. rewrite Read_entry_enough by lia.
    case_bool_decide as Hhead.
    + rewrite bool_decide_eq_false_2; [done|]. intros HF.
      apply Hstep in HF as [Hn _]. by apply Hn.
    + rewrite IH by (rewrite ?length_insert, ?length_drop; lia).
      case_bool_decide as Htail.
      * rewrite bool_decide_eq_true_2 by (by apply Hstep). f_equal.
        rewrite (take_S_r _ _ (decode_entry r)).
        2:{ apply list_lookup_insert_eq. lia. }
        rewrite take_insert_ge by lia.
        rewrite <- (fmap_S_seq 0), fmap_cons, <- list_fmap_compose, <- app_assoc.
        simpl. do 2 f_equal. apply list_fmap_ext. intros ? j _. simpl.
        apply entry_from_drop.
      * rewrite bool_decide_eq_false_2; [done|]. intros HF.
        apply Hstep in HF as [_ Ht]. by apply Htail.
Qed.

(** ** One call of [Process] *)

Section Process_facts.
Context `{Host}.
Implicit Types (st : state) (data : slice).

Lemma Process_probe data :
  ∃ r, default (zero_header, []) (Read_header (NewReader data))
       = (header_of data, r)
       ∧ ((8 <= len data)%nat → r = drop 8 (bytes_of data)).
Proof.
  unfold header_of.
  destruct (Read_header (NewReader data)) as [[h r]|] eqn:E; simpl.
  - exists r. split; [done|]. intros Hlen.
    rewrite header_of_enough in E by done. by injection E.
  - exists []. split; [done|]. intros Hlen.
    by rewrite header_of_enough in E.
Qed.

Lemma probe_condition data :
  (Z.of_nat (len data) < 32768 ∨ Magic (header_of data) ≠ 0
   ∨ Count (header_of data) > 64) ↔ ¬ probes_as_archive data.
Proof. unfold probes_as_archive. lia. Qed.

Lemma Process_small st data : Z.of_nat (len data) < 128 → dropped st data.
Proof.
  intros Hlen. unfold dropped, Process.
  destruct (Process_probe data) as (r & -> & _).
  rewrite bool_decide_eq_true_2 by lia.
  by rewrite bool_decide_eq_true_2.
Qed.

(** The opaque branch for a payload of 128 bytes or more: the write is
    issued; the run goes on if it succeeds and panics if it fails. *)
Lemma Process_opaque st data :
  ¬ probes_as_archive data → 128 <= Z.of_nat (len data) →
  Process data st
  = match ioutil_WriteFile (whole_file (proc st)) (bytes_of data) 438 (world st) with
    | (w, None) =>
      (Done (), mkState w (calls st ++ [whole_write st data])
                  (count_whole (proc st)))
    | (w, Some e) =>
      (Panic (PanicError e),
       mkState w (calls st ++ [whole_write st data]) (proc st))
    end.
Proof.
  intros Hprobe Hlen. unfold Process.
  destruct (Process_probe data) as (r & -> & _).
  rewrite bool_decide_eq_true_2 by (by apply probe_condition).
  rewrite bool_decide_eq_false_2 by lia.
  unfold bind, get_proc, WriteFile_, whole_write, whole_file. simpl.
  destruct (ioutil_WriteFile _ _ _ _) as [w [e|]]; done.
Qed.

Lemma Process_whole st data :
  ¬ probes_as_archive data → 128 <= Z.of_nat (len data) →
  accepts (world st) [whole_write st data] = true →
  written_as_whole st data.
Proof.
  intros Hprobe Hlen Hacc. unfold written_as_whole.
  rewrite Process_opaque by done. unfold advance. simpl in *.
  unfold whole_write in Hacc.
  destruct (ioutil_WriteFile _ _ _ _) as [w [e|]]; done.
Qed.

Lemma make_entries_ok n st :
  0 <= n → make_entries n st = (Done (replicate (Z.to_nat n) zero_entry), st).
Proof. intros Hn. unfold make_entries. by rewrite bool_decide_eq_false_2 by lia. Qed.

Lemma entry_from_at data j :
  entry_from (drop 8 (bytes_of data)) j = entry_at data j.
Proof.
  unfold entry_from, entry_at. rewrite drop_drop.
  by rewrite decode_entry_take.
Qed.

(** A negative count gets past the probe and panics in [make]. *)
Lemma Process_negative_count st data :
  probes_as_archive data → Count (header_of data) < 0 →
  Process data st = (Panic PanicMakeSlice, st).
Proof.
  intros Hprobe Hneg. unfold Process.
  destruct (Process_probe data) as (r & -> & _).
  rewrite bool_decide_eq_false_2 by (by rewrite probe_condition; intros []).
  unfold bind, make_entries. by rewrite bool_decide_eq_true_2.
Qed.

(** The archive branch with a count from 0 to 64, read off the payload. *)
Lemma Process_archive st data :
  probes_as_archive data → 0 <= Count (header_of data) →
  Process data st
  = if bool_decide (Forall (λ j, ¬ Offset (entry_at data j)
                                   < 8 + 12 * Count (header_of data))
                      (seq 0 (Z.to_nat (Count (header_of data)))))
    then if bool_decide (Count (header_of data) = 0) then (Done (), st)
         else emit_archive data
                (entries_of data (Z.to_nat (Count (header_of data)))) st
    else (Done (), st).
Proof.
  intros Hprobe Hcount. pose proof Hprobe as (Hlen & Hmagic & Hmax).
  unfold Process.
  destruct (Process_probe data) as (r & -> & Hr).
  rewrite Hr by lia. clear r Hr.
  rewrite bool_decide_eq_false_2 by (by rewrite probe_condition; intros []).
  unfold bind at 1. rewrite make_entries_ok by done.
  rewrite length_replicate.
  set (n := Z.to_nat (Count (header_of data))).
  replace (Int.int32_of (8 + 12 * Z.of_nat n))
    with (8 + 12 * Count (header_of data)).
  2:{ subst n. rewrite Z2Nat.id by done. symmetry. apply int32_of_id.
      unfold Int.is_int32. lia. }
  rewrite (parse_entries_spec _ n 0).
  2:{ by rewrite length_replicate. }
  2:{ rewrite length_drop. unfold len, bytes_of in *. lia. }
  assert (Forall (λ j, ¬ Offset (entry_from (drop 8 (bytes_of data)) j)
                         < 8 + 12 * Count (header_of data)) (seq 0 n)
          ↔ Forall (λ j, ¬ Offset (entry_at data j)
                           < 8 + 12 * Count (header_of data)) (seq 0 n)) as Hiff.
  { apply Forall_proper; [|done]. intros j. by rewrite entry_from_at. }
  destruct (decide (Forall (λ j, ¬ Offset (entry_at data j)
                           < 8 + 12 * Count (header_of data)) (seq 0 n))) as [Hall|Hbad].
  - rewrite (bool_decide_eq_true_2 _ Hall),
      (bool_decide_eq_true_2 _ (proj2 Hiff Hall)).
    rewrite take_0, app_nil_l, length_fmap, length_seq.
    replace (entry_from (drop 8 (bytes_of data)) <$> seq 0 n)
      with (entries_of data n).
    2:{ unfold entries_of. apply list_fmap_ext. intros ? j _.
        by rewrite entry_from_at. }
    destruct (decide (Count (header_of data) = 0)) as [H0|Hpos].
    + rewrite (bool_decide_eq_true_2 _ H0). rewrite bool_decide_eq_true_2; [done|].
      subst n. by rewrite H0.
    + rewrite (bool_decide_eq_false_2 _ Hpos).
      rewrite bool_decide_eq_false_2; [done|]. subst n. lia.
  - rewrite (bool_decide_eq_false_2 _ Hbad).
    rewrite bool_decide_eq_false_2; [done|]. by rewrite Hiff.
Qed.

(** ** Slicing and the file-writing loop *)

Lemma reslice_in_range data lo hi :
  0 <= lo → lo <= hi → hi <= Z.of_nat (cap data) →
  reslice data lo hi
  = Some (Slice (take (Z.to_nat (hi - lo)) (drop (Z.to_nat lo) (arr data)))
                (drop (Z.to_nat hi) (arr data))).
Proof. intros. unfold reslice. by rewrite bool_decide_eq_true_2. Qed.

Lemma reslice_out_of_range data lo hi :
  ¬ (0 <= lo ∧ lo <= hi ∧ hi <= Z.of_nat (cap data)) →
  reslice data lo hi = None.
Proof. intros. unfold reslice. by rewrite bool_decide_eq_false_2. Qed.

Lemma len_le_cap data : (len data <= cap data)%nat.
Proof. unfold len, cap. lia. Qed.


(** The range test in the terms of the entry's fields. *)
Lemma part_in_range_fits data e :
  0 <= Offset e → Int.is_int32 (Offset e) → Int.is_int32 (Length e) →
  part_in_range data e ↔ fits_capacity data e.
Proof.
  intros Hoff HO HL. unfold part_in_range, fits_capacity.
  destruct (add32_cases _ _ Hoff HO HL) as [[Hlt ->]|[Hge Hneg]]; lia.
Qed.

Lemma write_entries_proc archbase data entries : ∀ st,
  proc (write_entries archbase data entries st).2 = proc st.
Proof.
  induction entries as [|e entries IH]; intros st; [done|].
  cbn [write_entries]. unfold bind, from_option.
  destruct (reslice _ _ _) as [part|]; [|done]. simpl.
  unfold WriteFile_.
  destruct (ioutil_WriteFile _ _ _ _) as [w [err|]]; simpl; [done|].
  by rewrite IH.
Qed.

(** Every slice expression in range and every write accepted: the loop
    issues one write per entry, each with the bytes its slice shows. *)
Lemma write_entries_done archbase data entries : ∀ st,
  Forall (part_in_range data) entries →
  accepts (world st) (entry_write archbase data <$> entries) = true →
  write_entries archbase data entries st
  = (Done (), advance st (entry_write archbase data <$> entries) (proc st)).
Proof.
  induction entries as [|e entries IH]; intros st Hin Hacc.
  - unfold advance. simpl. rewrite app_nil_r. by destruct st.
  - apply Forall_cons in Hin as [(Hlo & Hle & Hhi) Hin].
    cbn [write_entries]. unfold bind at 1.
    rewrite reslice_in_range by done. simpl.
    unfold bind at 1, WriteFile_. simpl in Hacc.
    unfold entry_write at 1 in Hacc.
    unfold bytes_of at 1 2. simpl. fold (slice_bytes data e).
    unfold advance, entry_write at 1. simpl.
    destruct (ioutil_WriteFile _ _ _ _) as [w [err|]] eqn:Hw; [done|].
    unfold bind. simpl. rewrite IH by done.
    unfold advance. simpl. by rewrite <- app_assoc.
Qed.

(** One slice expression out of range: the loop panics, at that entry or at
    a failed write before it. *)
Lemma write_entries_panics archbase data entries : ∀ st,
  Exists (λ e, ¬ part_in_range data e) entries →
  ∃ p, (write_entries archbase data entries st).1 = Panic p.
Proof.
  induction entries as [|e entries IH]; intros st Hex.
  - by apply Exists_nil in Hex.
  - cbn [write_entries]. unfold bind at 1, from_option.
    destruct (decide (part_in_range data e)) as [Hin|Hout].
    + apply Exists_cons in Hex as [?|Hex]; [done|].
      destruct Hin as (? & ? & ?). rewrite reslice_in_range by done. simpl.
      unfold bind at 1, WriteFile_.
      destruct (ioutil_WriteFile _ _ _ _) as [w [err|]]; simpl; [by eexists|].
      unfold bind. simpl. apply IH, Hex.
    + rewrite reslice_out_of_range by done. by eexists.
Qed.

(** ** The three ways through the archive branch *)

Lemma entries_pass_iff data :
  probes_as_archive data →
  Forall (λ j, ¬ Offset (entry_at data j) < 8 + 12 * Count (header_of data))
         (seq 0 (Z.to_nat (Count (header_of data))))
  ↔ ¬ some_entry_rejected data.
Proof.
  intros (Hlen & _ & Hmax). rewrite Forall_forall. split.
  - intros Hall (i & Hi & [Hshort|Hbad]).
    + unfold len in *. lia.
    + apply (Hall i); [|done]. apply elem_of_seq. lia.
  - intros Hnone j Hj%elem_of_seq Hbad. apply Hnone.
    exists j. split; [lia|]. by right.
Qed.

Lemma Process_zero_count st data :
  probes_as_archive data → Count (header_of data) = 0 → dropped st data.
Proof.
  intros Hprobe H0. unfold dropped. rewrite Process_archive by (done || lia).
  rewrite (bool_decide_eq_true_2 _ H0). by case_bool_decide.
Qed.

Lemma Process_entry_rejected st data :
  probes_as_archive data → some_entry_rejected data → dropped st data.
Proof.
  intros Hprobe Hrej. unfold dropped.
  assert (0 <= Count (header_of data)) as Hcount.
  { destruct Hrej as (i & Hi & _). lia. }
  rewrite Process_archive by done.
  rewrite bool_decide_eq_false_2; [done|].
  intros Hall. by apply entries_pass_iff in Hall.
Qed.

Lemma Process_accepted st data :
  accepted_archive data →
  Process data st
  = emit_archive data (entries_of data (Z.to_nat (Count (header_of data)))) st.
Proof.
  intros (Hprobe & Hpos & Hnone).
  rewrite Process_archive by (done || lia).
  rewrite bool_decide_eq_true_2 by (by apply entries_pass_iff).
  rewrite bool_decide_eq_false_2; [done|lia].
Qed.

(** The calls an accepted archive should lead to. *)
Lemma emit_archive_done st data entries :
  Forall (part_in_range data) entries →
  accepts (world st) (archive_calls st data entries) = true →
  emit_archive data entries st
  = (Done (), advance st (archive_calls st data entries)
                (count_archive (proc st))).
Proof.
  intros Hin Hacc. unfold emit_archive, archive_calls in *.
  unfold bind at 1, get_proc. unfold bind at 1, Mkdir_.
  unfold bind at 1. simpl in Hacc.
  rewrite write_entries_done by done.
  unfold bind, get_proc, set_proc, advance. simpl.
  by rewrite <- app_assoc.
Qed.

Lemma emit_archive_panics st data entries :
  Exists (λ e, ¬ part_in_range data e) entries →
  ∃ p st', emit_archive data entries st = (Panic p, st')
           ∧ proc st' = proc st.
Proof.
  intros Hex. unfold emit_archive, bind, get_proc, Mkdir_. simpl.
  match goal with |- context [write_entries ?a ?d ?es ?s] =>
    pose proof (write_entries_proc a d es s) as Hproc;
    destruct (write_entries_panics a d es s Hex) as (p & Hp);
    destruct (write_entries a d es s) as [o st'] end.
  simpl in *. subst o. by exists p, st'.
Qed.

Lemma dropped_not_written st data : dropped st data → ¬ written_as_whole st data.
Proof.
  unfold dropped, written_as_whole. intros -> [= Heq].
  apply (f_equal (λ s, length (calls s))) in Heq.
  unfold advance in Heq. simpl in Heq. rewrite length_app in Heq.
  simpl in Heq. lia.
Qed.

(** ** The claims about one call of [Process] *)

(** C5. A payload of exactly 127 bytes is never taken for an archive and is
    dropped: [Process] returns with the file system, the call log and both
    counters as they were. A payload of exactly 128 bytes is never taken for
    an archive either and, when the file system takes the write, is written
    whole under the name the whole-blob counter gives, and that counter goes
    up by one (the counter being an int below its largest value). *)
Theorem opaque_size_boundary st data :
  (Z.of_nat (len data) = 127 → ¬ probes_as_archive data ∧ dropped st data)
  ∧ (Z.of_nat (len data) = 128 →
     accepts (world st) [whole_write st data] = true →
     - 2 ^ 63 <= wholeCounter (proc st) < Int.max_int64 →
     ¬ probes_as_archive data
     ∧ written_as_whole st data
     ∧ wholeCounter (proc (Process data st).2) = wholeCounter (proc st) + 1
     ∧ archiveCounter (proc (Process data st).2) = archiveCounter (proc st)).
Proof.
  split.
  - intros Hlen. split.
    + unfold probes_as_archive. lia.
    + apply Process_small. lia.
  - intros Hlen Hacc Hctr.
    assert (¬ probes_as_archive data) as Hprobe.
    { unfold probes_as_archive. lia. }
    assert (written_as_whole st data) as Hw.
    { apply Process_whole; [done|lia|done]. }
    split_and!; [done..| |].
    + rewrite Hw. simpl. by apply incr_succ.
    + by rewrite Hw.
Qed.

(** C9. A payload of at least 32768 bytes whose header has magic zero and a
    negative count gets past the probe, which only tests [count > 64], and
    panics in [make([]ArchiveEntry, count)]: the run is aborted with nothing
    written, and the payload is neither dropped nor written whole. *)
Theorem negative_count_panics st data :
  32768 <= Z.of_nat (len data) → Magic (header_of data) = 0 →
  Count (header_of data) < 0 →
  Process data st = (Panic PanicMakeSlice, st)
  ∧ ¬ dropped st data ∧ ¬ written_as_whole st data.
Proof.
  intros Hlen Hmagic Hneg.
  assert (Process data st = (Panic PanicMakeSlice, st)) as HP.
  { apply Process_negative_count; [|done]. unfold probes_as_archive. lia. }
  unfold dropped, written_as_whole. rewrite HP. by split_and!.
Qed.

(** C10. A payload that [Process] rejects (an entry that is cut short or
    whose offset points into the header and table, an empty table, or a
    non-archive payload shorter than 128 bytes) leaves everything as it was:
    both counters, the call log (no file, no directory) and the world. *)
Theorem rejected_leaves_no_trace st data :
  rejected data →
  Process data st = (Done (), st)
  ∧ archiveCounter (proc (Process data st).2) = archiveCounter (proc st)
  ∧ wholeCounter (proc (Process data st).2) = wholeCounter (proc st)
  ∧ calls (Process data st).2 = calls st
  ∧ world (Process data st).2 = world st.
Proof.
  intros Hrej.
  assert (Process data st = (Done (), st)) as HP.
  { destruct Hrej as [[Hp Hbad]|[[Hp H0]|[_ Hsmall]]].
    - by apply Process_entry_rejected.
    - by apply Process_zero_count.
    - by apply Process_small. }
  by rewrite HP.
Qed.

(** C1, as the code has it. A payload that enters archive parsing and has an
    entry whose offset is below [8 + 12*count] is dropped: [Process] returns
    with nothing written and nothing changed. There is no fall back to the
    whole-blob file, and no partial archive either. *)
Theorem bad_offset_drops_payload st data (i : nat) :
  probes_as_archive data →
  Z.of_nat i < Count (header_of data) →
  Offset (entry_at data i) < 8 + 12 * Count (header_of data) →
  dropped st data ∧ ¬ written_as_whole st data.
Proof.
  intros Hprobe Hi Hbad.
  assert (dropped st data) as Hd.
  { apply Process_entry_rejected; [done|]. exists i. split; [done|]. by right. }
  split; [done|]. by apply dropped_not_written.
Qed.

(** C8, as the code has it. In an accepted archive, an entry with a negative
    length, or whose [offset + length] lies beyond the capacity of the
    payload's slice or beyond int32, makes [Process] panic (at that slice
    expression, or at a failed write before it), and neither counter is
    advanced. The limit is the capacity, not the length: when every entry
    has a non-negative length and an [offset + length] within the capacity
    (and within int32), and the file system takes the calls, [Process] goes
    through without a panic, also for an entry that runs past the payload's
    end, whose file then holds bytes from beyond the payload. *)
Theorem slice_out_of_range_panics st data :
  accepted_archive data →
  (∀ i : nat, Z.of_nat i < Count (header_of data) →
     Length (entry_at data i) < 0
     ∨ Z.of_nat (cap data) < Offset (entry_at data i) + Length (entry_at data i)
     ∨ 2 ^ 31 <= Offset (entry_at data i) + Length (entry_at data i) →
     ∃ p st', Process data st = (Panic p, st')
              ∧ archiveCounter (proc st') = archiveCounter (proc st)
              ∧ wholeCounter (proc st') = wholeCounter (proc st))
  ∧ (let entries := entries_of data (Z.to_nat (Count (header_of data))) in
     Forall (fits_capacity data) entries →
     accepts (world st) (archive_calls st data entries) = true →
     Process data st
     = (Done (), advance st (archive_calls st data entries)
                   (count_archive (proc st)))).
Proof.
  intros Hacc. rewrite Process_accepted by done.
  destruct Hacc as (Hprobe & Hpos & Hnone).
  assert (∀ i : nat, Z.of_nat i < Count (header_of data) →
            part_in_range data (entry_at data i)
            ↔ fits_capacity data (entry_at data i)) as Hiff.
  { intros i Hi. destruct (entry_at_range data i) as (_ & HL & HO).
    apply part_in_range_fits; [|done..].
    destruct (decide (0 <= Offset (entry_at data i))) as [|Hneg]; [done|].
    destruct Hnone. exists i. split; [done|]. right. lia. }
  split.
  - intros i Hi Hout.
    destruct (emit_archive_panics st data
                (entries_of data (Z.to_nat (Count (header_of data)))))
      as (p & st' & HP & Hproc).
    + apply Exists_exists. exists (entry_at data i). split.
      * unfold entries_of. apply list_elem_of_fmap. exists i. split; [done|].
        apply elem_of_seq. lia.
      * rewrite Hiff by done. unfold fits_capacity. lia.
    + exists p, st'. by rewrite HP, Hproc.
  - intros entries Hfits Haccepts. apply emit_archive_done; [|done].
    subst entries. unfold entries_of in *.
    rewrite Forall_fmap in Hfits |- *.
    rewrite Forall_forall in Hfits |- *.
    intros i Hi. specialize (Hfits i Hi). simpl in *.
    apply Hiff; [|done]. apply elem_of_seq in Hi. lia.
Qed.

(** ** Names *)

Lemma names_lookup_table id n : names !! id = Some n → (id, n) ∈ names_table.
Proof. apply elem_of_list_to_map_2. Qed.

Lemma names_table_checked :
  Forall (λ p : Z * string,
            0 <= p.1 <= 35 ∧ p.2 ≠ EmptyString
            ∧ (∀ s, p.2 ≠ String "u" s)
            ∧ Forall (λ q : Z * string, p.2 = q.2 → p.1 = q.1) names_table)
         names_table.
Proof.
  unfold names_table.
  repeat (apply Forall_cons; split;
    [split_and!; [simpl; lia..|done|done|
       repeat (apply Forall_cons; split; [simpl; congruence|]); constructor]|]).
  constructor.
Qed.

Lemma names_entry id n :
  names !! id = Some n →
  0 <= id <= 35 ∧ n ≠ EmptyString ∧ (∀ s, n ≠ String "u" s)
  ∧ ∀ id', names !! id' = Some n → id = id'.
Proof.
  intros Hn%names_lookup_table.
  pose proof names_table_checked as Hall.
  rewrite Forall_forall in Hall.
  destruct (Hall _ Hn) as (Hrange & Hne & Hu & Hinj). simpl in *.
  split_and!; [lia..|done|done|].
  intros id' Hn'%names_lookup_table.
  rewrite Forall_forall in Hinj. by apply (Hinj (id', n)).
Qed.


(** An entry's file name: the table's name for its id, or [unk<id>]. *)
Lemma entry_name_spec e :
  entry_name e = match names !! Id e with
                 | Some n => n
                 | None => "unk" +:+ Fmt.d (Id e)
                 end.
Proof.
  unfold entry_name, names_at.
  destruct (names !! Id e) as [n|] eqn:Hn; simpl.
  - apply names_entry in Hn as (_ & Hne & _).
    by rewrite bool_decide_eq_false_2.
  - done.
Qed.

Lemma entry_name_inj e1 e2 : entry_name e1 = entry_name e2 → Id e1 = Id e2.
Proof.
  rewrite !entry_name_spec.
  destruct (names !! Id e1) as [n1|] eqn:H1;
    destruct (names !! Id e2) as [n2|] eqn:H2.
  - intros <-. apply names_entry in H1 as (_ & _ & _ & Hinj). by apply Hinj.
  - intros ->. apply names_entry in H1 as (_ & _ & Hu & _).
    by destruct (Hu ("nk" +:+ Fmt.d (Id e2))).
  - intros <-. apply names_entry in H2 as (_ & _ & Hu & _).
    by destruct (Hu ("nk" +:+ Fmt.d (Id e1))).
  - unfold Fmt.d. simpl. intros [= Heq].
    change (pretty (Id e1) = pretty (Id e2)) in Heq.
    by apply (inj pretty) in Heq.
Qed.



(** ** A run: one [Process] call after the other *)

Lemma dirs_made_app cs1 cs2 : dirs_made (cs1 ++ cs2) = dirs_made cs1 ++ dirs_made cs2.
Proof. apply omap_app. Qed.

Lemma write_entries_calls archbase data entries : ∀ st,
  ∃ ws, calls (write_entries archbase data entries st).2 = calls st ++ ws
        ∧ dirs_made ws = [].
Proof.
  induction entries as [|e entries IH]; intros st.
  - exists []. by rewrite app_nil_r.
  - cbn [write_entries]. unfold bind at 1, from_option.
    destruct (reslice _ _ _) as [part|]; simpl.
    2:{ exists []. by rewrite app_nil_r. }
    unfold bind at 1, WriteFile_.
    destruct (ioutil_WriteFile _ _ _ _) as [w [err|]]; simpl.
    { eexists [_]. done. }
    unfold bind. simpl.
    match goal with |- context [write_entries _ _ _ ?s] =>
      destruct (IH s) as (ws & -> & Hws) end.
    simpl. eexists (_ :: ws). rewrite <- app_assoc. done.
Qed.

(** What [emit_archive] does to the log and the counters, however it ends. *)
Lemma emit_archive_step st data entries o st' :
  emit_archive data entries st = (o, st') →
  (∃ ws, calls st' = calls st ++ Mkdir (archive_dir (proc st)) 511 :: ws
         ∧ dirs_made ws = [])
  ∧ (o = Done () → proc st' = count_archive (proc st))
  ∧ Destdir (proc st') = Destdir (proc st).
Proof.
  unfold emit_archive, bind, get_proc, Mkdir_. simpl.
  match goal with |- context [write_entries ?a ?d ?es ?s] =>
    pose proof (write_entries_proc a d es s) as Hproc;
    destruct (write_entries_calls a d es s) as (ws & Hcalls & Hws);
    destruct (write_entries a d es s) as [[[]|p] st1] end;
    simpl in *; intros [= <- <-]; simpl.
  - split_and!.
    + exists ws. by rewrite Hcalls, <- app_assoc.
    + intros _. by rewrite Hproc.
    + by rewrite Hproc.
  - split_and!.
    + exists ws. by rewrite Hcalls, <- app_assoc.
    + done.
    + by rewrite Hproc.
Qed.

(** One call of [Process], by the kind of payload. *)
Lemma Process_step st data o st' :
  Process data st = (o, st') →
  Destdir (proc st') = Destdir (proc st)
  ∧ ((accepted_archive data
      ∧ (∃ ws, calls st' = calls st ++ Mkdir (archive_dir (proc st)) 511 :: ws
               ∧ dirs_made ws = [])
      ∧ (o = Done () → proc st' = count_archive (proc st)))
     ∨ (written_whole data
        ∧ calls st' = calls st ++ [whole_write st data]
        ∧ archiveCounter (proc st') = archiveCounter (proc st)
        ∧ (o = Done () → proc st' = count_whole (proc st)))
     ∨ (¬ accepted_archive data ∧ ¬ written_whole data ∧ st' = st)).
Proof.
  destruct (decide (probes_as_archive data)) as [Hprobe|Hprobe].
  - assert (¬ written_whole data) as Hnw by (by intros []).
    destruct (decide (0 <= Count (header_of data))) as [Hcount|Hneg].
    + destruct (decide (accepted_archive data)) as [Hacc|Hnacc].
      * rewrite Process_accepted by done. intros HP.
        apply emit_archive_step in HP as (Hcalls & Hproc & Hdest).
        split; [done|]. left. done.
      * assert (dropped st data) as ->.
        { destruct (decide (Count (header_of data) = 0)) as [H0|Hpos].
          - by apply Process_zero_count.
          - apply Process_entry_rejected; [done|].
            destruct (decide (some_entry_rejected data)); [done|].
            destruct Hnacc. split_and!; [done|lia|done]. }
        intros [= <- <-]. split; [done|]. right. right. done.
    + rewrite Process_negative_count by (done || lia).
      intros [= <- <-]. split; [done|]. right. right. split_and!; [|done..].
      intros (_ & Hpos & _). lia.
  - assert (¬ accepted_archive data) as Hna by (by intros []).
    destruct (decide (Z.of_nat (len data) < 128)) as [Hsmall|Hbig].
    + rewrite (Process_small st data Hsmall). intros [= <- <-].
      split; [done|]. right. right. split_and!; [done| |done].
      intros [_ ?]. lia.
    + rewrite Process_opaque by (done || lia).
      destruct (ioutil_WriteFile _ _ _ _) as [w [err|]];
        intros [= <- <-]; simpl; (split; [done|]); right; left;
        (split_and!; [split; [done|lia]|done..]).
Qed.

Lemma archive_dir_name p :
  0 <= archiveCounter p →
  archive_dir p = archive_name (Destdir p) (Z.to_nat (archiveCounter p)).
Proof. intros Hp. unfold archive_dir, archive_name. by rewrite Z2Nat.id. Qed.

Lemma whole_file_name p :
  0 <= wholeCounter p →
  whole_file p = whole_name (Destdir p) (Z.to_nat (wholeCounter p)).
Proof. intros Hp. unfold whole_file, whole_name. by rewrite Z2Nat.id. Qed.

(** After a run that went through, the counters have advanced by the number
    of archives and of whole blobs, and the directories made are numbered
    from the archive counter's first value on, without a gap. *)
Lemma process_all_counts payloads : ∀ st st',
  process_all payloads st = (Done (), st') →
  0 <= archiveCounter (proc st) → 0 <= wholeCounter (proc st) →
  archiveCounter (proc st) + Z.of_nat (length payloads) < 2 ^ 63 →
  wholeCounter (proc st) + Z.of_nat (length payloads) < 2 ^ 63 →
  proc st'
  = mkProcessor (Destdir (proc st))
      (archiveCounter (proc st)
       + Z.of_nat (length (filter accepted_archive payloads)))
      (wholeCounter (proc st)
       + Z.of_nat (length (filter written_whole payloads)))
  ∧ dirs_made (calls st')
    = dirs_made (calls st)
      ++ (archive_name (Destdir (proc st))
          <$> seq (Z.to_nat (archiveCounter (proc st)))
                  (length (filter accepted_archive payloads))).
Proof.
  induction payloads as [|data payloads IH]; intros st st' Hrun Ha Hw Hamax Hwmax.
  - injection Hrun as <-. simpl. rewrite !Z.add_0_r, app_nil_r.
    by destruct (proc st).
  - cbn [process_all] in Hrun. unfold bind in Hrun.
    destruct (Process data st) as [[[]|p] st1] eqn:HP; [|done].
    simpl length in Hamax, Hwmax.
    apply Process_step in HP as (Hdest & Hcase).
    destruct Hcase as [(Hacc & (ws & Hcalls & Hws) & Hproc)
                      |[(Hwhole & Hcalls & _ & Hproc)|(Hnacc & Hnwhole & ->)]].
    + assert (¬ written_whole data) as Hnw.
      { intros [Hnp _]. by destruct Hacc. }
      specialize (Hproc eq_refl).
      rewrite filter_cons_True, (filter_cons_False written_whole) by done.
      destruct (IH st1 st' Hrun) as (Hp' & Hdirs);
        rewrite ?Hproc; simpl; rewrite ?incr_succ by (unfold Int.max_int64; lia);
        try lia.
      rewrite Hp', Hdirs, Hproc, Hcalls. simpl.
      rewrite incr_succ by (unfold Int.max_int64; lia).
      split; [f_equal; lia|].
      rewrite dirs_made_app. simpl. rewrite Hws, archive_dir_name by done.
      rewrite <- app_assoc. simpl.
      by replace (Z.to_nat (archiveCounter (proc st) + 1))
        with (S (Z.to_nat (archiveCounter (proc st)))) by lia.
    + assert (¬ accepted_archive data) as Hna.
      { intros [Hp _]. by destruct Hwhole. }
      specialize (Hproc eq_refl).
      rewrite filter_cons_False, (filter_cons_True written_whole) by done.
      destruct (IH st1 st' Hrun) as (Hp' & Hdirs);
        rewrite ?Hproc; simpl; rewrite ?incr_succ by (unfold Int.max_int64; lia);
        try lia.
      rewrite Hp', Hdirs, Hproc, Hcalls. simpl.
      rewrite incr_succ by (unfold Int.max_int64; lia).
      split; [f_equal; lia|].
      rewrite dirs_made_app. simpl. by rewrite app_nil_r.
    + rewrite !filter_cons_False by done.
      apply IH; [done..|lia|lia].
Qed.

(** C2, as the code has it. With [count > 64] or [magic != 0] the payload
    takes the opaque path whatever its size: dropped below 128 bytes,
    written whole from 128 bytes on. With [magic == 0] and [count == 0] the
    payload takes the opaque path only when it is shorter than 32768 bytes;
    from 32768 bytes on it enters archive parsing and is dropped there,
    written neither as an archive nor as a whole-blob file. In no case,
    however the call ends, is a directory made or the archive counter
    touched. *)
Theorem header_rejection st data :
  Count (header_of data) = 0 ∨ Count (header_of data) > 64
  ∨ Magic (header_of data) ≠ 0 →
  ¬ accepted_archive data
  ∧ (Z.of_nat (len data) < 128 → dropped st data)
  ∧ (¬ probes_as_archive data → 128 <= Z.of_nat (len data) →
     accepts (world st) [whole_write st data] = true →
     written_as_whole st data)
  ∧ (probes_as_archive data → dropped st data ∧ ¬ written_as_whole st data)
  ∧ (probes_as_archive data
     ↔ 32768 <= Z.of_nat (len data) ∧ Magic (header_of data) = 0
       ∧ Count (header_of data) = 0)
  ∧ (∀ o st', Process data st = (o, st') →
       dirs_made (calls st') = dirs_made (calls st)
       ∧ archiveCounter (proc st') = archiveCounter (proc st)).
Proof.
  intros Hhdr.
  assert (¬ accepted_archive data) as Hna.
  { intros (Hprobe & Hpos & _). unfold probes_as_archive in Hprobe. lia. }
  split_and!.
  - done.
  - apply Process_small.
  - apply Process_whole.
  - intros Hprobe.
    assert (dropped st data) as Hd.
    { apply Process_zero_count; [done|]. unfold probes_as_archive in Hprobe. lia. }
    split; [done|]. by apply dropped_not_written.
  - unfold probes_as_archive. lia.
  - intros o st' HP. apply Process_step in HP as (_ & Hcase).
    destruct Hcase as [(Hacc & _)|[(_ & -> & Hctr & _)|(_ & _ & ->)]];
      [done| |done].
    split; [|done]. rewrite dirs_made_app. simpl. by rewrite app_nil_r.
Qed.

(** C6. Take a run that starts with both counters at zero and has gone
    through some payloads (fewer than 2^63, the counters being ints). Let
    [N] of them be accepted as archives and [W] be written whole, however
    many rejected ones lie between them. Then the directories made so far
    are numbers 0, 1, ..., N-1, in this order; the counters stand at [N] and
    [W]; and the next payload, if it is accepted as an archive, gets
    directory number [N], if it is written whole, gets file number [W], and
    otherwise issues no call at all. Numbers are zero-padded: to two digits
    for directories (archive_00, archive_01, ...), to three for whole-blob
    files (whole_000, whole_001, ...). *)
Theorem counters_number_outputs dest payloads st st' :
  let N := length (filter accepted_archive payloads) in
  let W := length (filter written_whole payloads) in
  proc st = mkProcessor dest 0 0 →
  Z.of_nat (length payloads) < 2 ^ 63 →
  process_all payloads st = (Done (), st') →
  dirs_made (calls st') = dirs_made (calls st) ++ (archive_name dest <$> seq 0 N)
  ∧ archiveCounter (proc st') = Z.of_nat N
  ∧ wholeCounter (proc st') = Z.of_nat W
  ∧ (∀ data o st'', Process data st' = (o, st'') →
       (accepted_archive data →
        ∃ ws, calls st'' = calls st' ++ Mkdir (archive_name dest N) 511 :: ws
              ∧ dirs_made ws = [])
       ∧ (written_whole data →
          calls st''
          = calls st' ++ [WriteFile (whole_name dest W) (bytes_of data) 438])
       ∧ (¬ accepted_archive data → ¬ written_whole data → calls st'' = calls st'))
  ∧ Fmt.d0 2 0 = "00" ∧ Fmt.d0 2 1 = "01" ∧ Fmt.d0 2 12 = "12"
  ∧ Fmt.d0 3 0 = "000" ∧ Fmt.d0 3 1 = "001" ∧ Fmt.d0 3 12 = "012".
Proof.
  intros N W Hstart Hmax Hrun.
  destruct (process_all_counts payloads st st' Hrun) as (Hproc & Hdirs);
    rewrite ?Hstart; simpl; try lia.
  rewrite Hstart in Hproc, Hdirs. simpl in Hproc, Hdirs.
  fold N in Hproc, Hdirs. fold W in Hproc.
  split_and!; try done.
  - by rewrite Hproc.
  - by rewrite Hproc.
  - intros data o st'' HP.
    apply Process_step in HP as (_ & Hcase).
    assert (archive_dir (proc st') = archive_name dest N) as Hdir.
    { rewrite archive_dir_name by (rewrite Hproc; simpl; lia).
      rewrite Hproc. simpl. f_equal. lia. }
    assert (whole_file (proc st') = whole_name dest W) as Hfile.
    { rewrite whole_file_name by (rewrite Hproc; simpl; lia).
      rewrite Hproc. simpl. f_equal. lia. }
    destruct Hcase as [(Hacc & (ws & Hcalls & Hws) & _)
                      |[(Hwhole & Hcalls & _ & _)|(Hnacc & Hnwhole & ->)]].
    + split_and!.
      * intros _. exists ws. by rewrite <- Hdir.
      * intros [Hnp _]. by destruct Hacc.
      * done.
    + split_and!.
      * intros [Hp _]. by destruct Hwhole.
      * intros _. rewrite Hcalls. unfold whole_write. by rewrite Hfile.
      * done.
    + done.
Qed.

End Process_facts.

(** ** The relocation reader *)

(** Fuel beyond the reader's length changes nothing. *)
Lemma rela_loop_fuel f symbols section : ∀ fuel1 fuel2 b offsets,
  (length b <= fuel1)%nat → (length b <= fuel2)%nat →
  rela_loop fuel1 f symbols section b offsets
  = rela_loop fuel2 f symbols section b offsets.
Proof.
  induction fuel1 as [|fuel1 IH]; intros fuel2 b offsets H1 H2.
  - destruct b; [|simpl in H1; lia]. by destruct fuel2.
  - destruct fuel2 as [|fuel2].
    { destruct b; [done|simpl in H2; lia]. }
    cbn [rela_loop]. case_bool_decide as Hb; [|done].
    unfold read_full. case_decide as H24; [|done].
    assert (length (drop 24 b) <= fuel1 ∧ length (drop 24 b) <= fuel2)%nat
      as [??] by (rewrite length_drop; lia).
    repeat case_match; auto.
Qed.

(** C7. When the relocation section is there and can be read, and its
    length is not a multiple of 24, [ParseRelocations] panics with the
    "Unexpected length" error: no record is looked at and no offset is
    returned. *)
Theorem odd_relocation_length_is_fatal f relSection section relsS rels :
  elf.Section_by_name f relSection = Some relsS →
  elf.Data relsS = inr rels →
  (len rels `mod` 24 ≠ 0)%nat →
  ParseRelocations f relSection section
  = Panic (PanicError (unexpected_length relSection (len rels))).
Proof.
  intros HS HD Hmod. unfold ParseRelocations. rewrite HS, HD.
  by rewrite bool_decide_eq_true_2.
Qed.

(** ** Boundary segmentation *)

Lemma sort_Slice_sorted offsets : StronglySorted Z.le (sort_Slice offsets).
Proof. apply StronglySorted_merge_sort; apply _. Qed.

Lemma sort_Slice_perm offsets : sort_Slice offsets ≡ₚ offsets.
Proof. apply merge_sort_Permutation. Qed.

(** The order of the result is the only one there is: whatever [sort.Slice]
    does with equal offsets, it returns this list. *)
Lemma sort_Slice_unique offsets sorted :
  Sorted Z.le sorted → sorted ≡ₚ offsets → sorted = sort_Slice offsets.
Proof.
  intros Hs Hp. apply (Sorted_unique Z.le).
  - done.
  - apply Sorted_merge_sort; apply _.
  - by rewrite Hp, sort_Slice_perm.
Qed.

(** The loop's pairs are the neighbours of [0 :: offsets]. *)
Lemma candidates_from pre : ∀ rest,
  imap (λ i off, (default 0 (prev_of (pre ++ rest) (length pre + i)), off)) rest
  = zip (default 0 (last pre) :: rest) rest.
Proof.
  intros rest. revert pre.
  induction rest as [|x rest IH]; intros pre; [done|].
  rewrite imap_cons. cbn [zip zip_with]. f_equal.
  - f_equal. unfold prev_of. rewrite Nat.add_0_r.
    destruct pre as [|y pre _] using rev_ind; [done|].
    rewrite bool_decide_eq_true_2 by (rewrite length_app; simpl; lia).
    rewrite last_snoc, <- app_assoc. simpl.
    rewrite lookup_app_r by (rewrite length_app; simpl; lia).
    rewrite length_app. simpl.
    by replace (length pre + 1 - 1 - length pre)%nat with 0%nat by lia.
  - specialize (IH (pre ++ [x])). rewrite last_snoc, <- app_assoc in IH.
    simpl in IH. rewrite <- IH. apply imap_ext. intros i y _. simpl.
    rewrite length_app. simpl. do 3 f_equal. lia.
Qed.

Lemma candidates_consecutive offsets :
  candidates offsets = consecutive_ranges offsets.
Proof. apply (candidates_from []). Qed.

(** Neighbours of a sorted list: each range starts no earlier than the
    first boundary and ends no earlier than it starts, and every range lies
    before the ones that follow. *)
Lemma consecutive_sorted : ∀ l p,
  StronglySorted Z.le (p :: l) →
  Forall (λ r, p <= r.1 ∧ r.1 <= r.2) (zip (p :: l) l)
  ∧ StronglySorted (λ r1 r2 : Z * Z, r1.2 <= r2.1) (zip (p :: l) l).
Proof.
  induction l as [|x l IH]; intros p Hs.
  - split; constructor.
  - apply StronglySorted_inv in Hs as [Hs Hp].
    apply Forall_cons in Hp as [Hpx Hp].
    destruct (IH x Hs) as (Hall & Hsorted).
    cbn [zip zip_with]. split.
    + constructor; [simpl; lia|].
      eapply Forall_impl; [exact Hall|]. intros [a b] ?; simpl in *. lia.
    + constructor; [done|].
      eapply Forall_impl; [exact Hall|]. intros [a b] ?; simpl in *. lia.
Qed.







(** Outside that domain the int64 subtraction [off - prev] can wrap around:
    with the offset -2^63 the range from it to the sentinel 100 has a
    negative [off - prev] and does not pass the test. *)
Remark segmenter_extreme_offset :
  consecutive_ranges (sort_Slice ([- 2 ^ 63] ++ [100]))
  = [(0, - 2 ^ 63); (- 2 ^ 63, 100)]
  ∧ Int.sub64 100 (- 2 ^ 63) = - 2 ^ 63 + 100
  ∧ Segmenter [- 2 ^ 63] 100 = [].
Proof. split_and!; compute_done. Qed.

(** ** The loop of [main] *)

Section Main_facts.
Context `{Host}.
Implicit Types (st : state) (rodata : slice).

(** The loop visits the ranges that pass the test, in order. *)
Lemma segment_loop_from rodata : ∀ rest pre st,
  segment_loop rodata (pre ++ rest) (length pre) rest st
  = for_each (process_segment rodata)
      (filter (λ r, long_enough r = true)
         (imap (λ i off, (default 0 (prev_of (pre ++ rest) (length pre + i)), off))
               rest)) st.
Proof.
  induction rest as [|off rest IH]; intros pre st; [done|].
  cbn [segment_loop]. rewrite imap_cons, filter_cons.
  assert (∃ prev, prev_of (pre ++ off :: rest) (length pre) = Some prev)
    as [prev Hprev].
  { unfold prev_of. case_bool_decide; [|by eexists].
    apply lookup_lt_is_Some. rewrite length_app. simpl. lia. }
  rewrite Nat.add_0_r, Hprev. unfold bind at 1. simpl.
  specialize (IH (pre ++ [off])).
  rewrite <- app_assoc, length_app in IH. simpl in IH.
  replace (length pre + 1)%nat with (S (length pre)) in IH by lia.
  assert (imap ((λ i off0, (default 0 (prev_of (pre ++ off :: rest)
                                        (length pre + i)), off0)) ∘ S) rest
          = imap (λ i off0, (default 0 (prev_of (pre ++ off :: rest)
                                        (S (length pre) + i)), off0)) rest)
    as ->.
  { apply imap_ext. intros i y _. simpl. do 3 f_equal. lia. }
  unfold long_enough at 1. simpl.
  case_bool_decide as Hshort; case_decide as Hlong;
    apply bool_decide_eq_true in Hlong || rewrite bool_decide_eq_true in Hlong;
    try tauto.
  - apply IH.
  - cbn [for_each]. unfold process_segment, bind, from_option. simpl.
    destruct (reslice rodata prev off) as [seg|]; [|done]. simpl.
    destruct (flate_ReadAll (bytes_of seg)) as [e|data]; simpl.
    + apply IH.
    + destruct (Process data st) as [[[]|p] st1]; [|done]. apply IH.
Qed.

Lemma segment_loop_segments rodata offsets st :
  segment_loop rodata offsets 0 offsets st
  = for_each (process_segment rodata) (segments offsets) st.
Proof. apply (segment_loop_from rodata offsets []). Qed.

(** When every range can be sliced, the loop is the run of [Process] over
    the payloads that inflate. *)
Lemma for_each_process_all rodata : ∀ ranges st,
  Forall (λ r : Z * Z, is_Some (reslice rodata r.1 r.2)) ranges →
  for_each (process_segment rodata) ranges st
  = process_all (payloads_of rodata ranges) st.
Proof.
  induction ranges as [|r ranges IH]; intros st Hall; [done|].
  apply Forall_cons in Hall as [[seg Hseg] Hall].
  cbn [for_each]. unfold payloads_of. cbn [omap list_omap].
  rewrite Hseg. simpl. unfold process_segment, bind at 1. rewrite Hseg.
  simpl. unfold bind at 1. simpl.
  destruct (flate_ReadAll (bytes_of seg)) as [e|data]; simpl.
  - by apply IH.
  - unfold bind. destruct (Process data st) as [[[]|p] st1]; [|done].
    by apply IH.
Qed.

(** With relocation offsets that lie within the section, the loop of [main]
    is the run of [Process] over the payloads of the Segmenter's ranges. *)
Lemma main_loop_is_run rodata relocs st :
  Forall (λ o, 0 <= o <= Z.of_nat (len rodata)) relocs →
  Z.of_nat (len rodata) <= Int.max_int64 →
  let offsets := sort_Slice (relocs ++ [Z.of_nat (len rodata)]) in
  segment_loop rodata offsets 0 offsets st
  = process_all (payloads_of rodata (Segmenter relocs (Z.of_nat (len rodata)))) st.
Proof.
  intros Hrelocs Hmax offsets.
  rewrite segment_loop_segments. apply for_each_process_all.
  assert (Forall (λ o, 0 <= o <= Z.of_nat (len rodata)) offsets) as Hall.
  { subst offsets. rewrite sort_Slice_perm. apply Forall_app. split; [done|].
    apply Forall_cons. split; [lia|constructor]. }
  assert (StronglySorted Z.le (0 :: offsets)) as Hsorted.
  { constructor; [apply sort_Slice_sorted|].
    eapply Forall_impl; [exact Hall|]. simpl. lia. }
  apply consecutive_sorted in Hsorted as [Hpairs _].
  unfold Segmenter. fold offsets. unfold segments.
  rewrite candidates_consecutive. apply Forall_forall.
  intros [a b] [_ Hr]%list_elem_of_filter.
  rewrite Forall_forall in Hpairs. rewrite Forall_forall in Hall.
  destruct (Hpairs _ Hr) as [Ha Hab]. simpl in *.
  apply elem_of_zip_r, Hall in Hr.
  pose proof (len_le_cap rodata).
  rewrite reslice_in_range by lia. by eexists.
Qed.

(** All of [main], when the object file opens and its sections read. *)
Lemma main_is_run Args kernel_f destdir f rodataS rodata relocs st :
  Args !! 1%nat = Some kernel_f → Args !! 2%nat = Some destdir →
  elf_Open kernel_f (world st) = inr f →
  elf.Section_by_name f ".rodata" = Some rodataS →
  elf.Data rodataS = inr rodata →
  ParseRelocations f ".rela.rodata" ".rodata" = Done relocs →
  Forall (λ o, 0 <= o <= Z.of_nat (len rodata)) relocs →
  Z.of_nat (len rodata) <= Int.max_int64 →
  main Args st
  = process_all (payloads_of rodata (Segmenter relocs (Z.of_nat (len rodata))))
      (mkState (world st) (calls st) (mkProcessor destdir 0 0)).
Proof.
  intros Hk Hd Hopen Hsec Hdata Hrel Hrelocs Hmax.
  unfold main. rewrite Hk, Hd. unfold bind at 1. simpl.
  unfold bind at 1, Open_. rewrite Hopen.
  unfold bind at 1. simpl. rewrite Hsec.
  unfold bind at 1. simpl. rewrite Hdata.
  unfold bind at 1. simpl. rewrite Hrel.
  unfold bind at 1, lift. unfold bind, set_proc. simpl.
  by apply main_loop_is_run.
Qed.

End Main_facts.

(** ** Numbers in file names *)

Section Names_facts.
Context `{Host}.





(** Below one hundred a directory number has two digits, below one thousand
    a whole-blob number has three. *)
Lemma d0_width :
  Forall (λ k : nat, String.length (Fmt.d0 2 (Z.of_nat k)) = 2%nat) (seq 0 100)
  ∧ Forall (λ k : nat, String.length (Fmt.d0 3 (Z.of_nat k)) = 3%nat) (seq 0 1000).
Proof. split; compute_done. Qed.


End Names_facts.

(** ** The record loop of [ParseRelocations] *)

Lemma record_at_drop o bs k :
  record_at o (drop 24 bs) k = record_at o bs (S k).
Proof. unfold record_at. rewrite drop_drop. do 3 f_equal. lia. Qed.

Lemma record_at_0 o bs : record_at o bs 0 = elf.decode_Rela64 o (take 24 bs).
Proof. done. Qed.

(** The loop over a buffer of [k] whole records: the addends of the records
    that point into [section], in order, unless a record cannot be looked
    up. *)
Lemma rela_loop_spec f symbols section : ∀ (k : nat) b fuel offsets,
  length b = (24 * k)%nat → (length b <= fuel)%nat →
  rela_loop fuel f symbols section b offsets
  = if bool_decide (Forall (resolves f symbols)
                      (record_at (elf.ByteOrder f) b <$> seq 0 k))
    then Done (offsets
               ++ (elf.r_Addend
                   <$> filter (targets f symbols section)
                         (record_at (elf.ByteOrder f) b <$> seq 0 k)))
    else Panic PanicIndex.
Proof.
  induction k as [|k IH]; intros b fuel offsets Hlen Hfuel.
  - destruct b; [|simpl in Hlen; lia].
    rewrite bool_decide_eq_true_2 by constructor. simpl. rewrite app_nil_r.
    by destruct fuel.
  - destruct fuel as [|fuel]; [lia|].
    cbn [rela_loop]. rewrite bool_decide_eq_true_2 by lia.
    rewrite read_full_enough by lia.
    rewrite <- record_at_0.
    cbn [seq]. rewrite <- fmap_S_seq, fmap_cons, <- list_fmap_compose.
    assert ((record_at (elf.ByteOrder f) b ∘ S) <$> seq 0 k
            = record_at (elf.ByteOrder f) (drop 24 b) <$> seq 0 k) as ->.
    { apply list_fmap_ext. intros ? j _. simpl. by rewrite record_at_drop. }
    set (r := record_at (elf.ByteOrder f) b 0).
    set (rest := record_at (elf.ByteOrder f) (drop 24 b) <$> seq 0 k).
    specialize (IH (drop 24 b) fuel).
    rewrite length_drop in IH. fold rest in IH.
    rewrite filter_cons.
    change (index symbols
              (Int.uint64_of (Z.shiftr (elf.r_Info r) 32 - 1)))
      with (symbol_of symbols r).
    assert (Forall (resolves f symbols) (r :: rest)
            ↔ resolves f symbols r ∧ Forall (resolves f symbols) rest)
      as Hcons by apply Forall_cons.
    destruct (symbol_of symbols r) as [sym|] eqn:Hsym.
    2:{ rewrite bool_decide_eq_false_2; [done|]. intros [Hr _]%Hcons.
        unfold resolves in Hr. by rewrite Hsym in Hr. }
    destruct (decide (Z.land (elf.Info sym) 15 = elf.STT_SECTION))
      as [Htype|Htype].
    2:{ rewrite (bool_decide_eq_true_2 (Z.land (elf.Info sym) 15 ≠ _)) by done.
        rewrite IH by lia.
        rewrite decide_False.
        2:{ unfold targets. rewrite Hsym. by intros [? _]. }
        assert (Forall (resolves f symbols) (r :: rest)
                ↔ Forall (resolves f symbols) rest) as Hiff.
        { rewrite Hcons. unfold resolves at 1. rewrite Hsym.
          split; [by intros [_ ?]|]. intros ?. split; [|done]. by intros ?. }
        by rewrite (bool_decide_ext _ _ Hiff). }
    rewrite (bool_decide_eq_false_2 (Z.land (elf.Info sym) 15 ≠ _))
      by (by intros ?).
    destruct (index (elf.Sections f) (elf.Section sym)) as [s|] eqn:Hs.
    2:{ rewrite bool_decide_eq_false_2; [done|]. intros [Hr _]%Hcons.
        unfold resolves in Hr. rewrite Hsym, Hs in Hr.
        by destruct (Hr Htype). }
    assert (Forall (resolves f symbols) (r :: rest)
            ↔ Forall (resolves f symbols) rest) as Hiff.
    { rewrite Hcons. unfold resolves at 1. rewrite Hsym, Hs.
      split; [by intros [_ ?]|]. intros ?. split; [|done]. by eexists. }
    rewrite (bool_decide_ext _ _ Hiff).
    destruct (decide (elf.Name s = section)) as [Hname|Hname].
    + rewrite (bool_decide_eq_false_2 (elf.Name s ≠ _)) by (by intros ?).
      rewrite IH by lia.
      rewrite decide_True.
      2:{ unfold targets. rewrite Hsym, Hs. simpl. by rewrite Hname. }
      case_bool_decide; [|done]. simpl. by rewrite <- app_assoc.
    + rewrite (bool_decide_eq_true_2 (elf.Name s ≠ _)) by done.
      rewrite IH by lia.
      rewrite decide_False; [done|].
      unfold targets. rewrite Hsym, Hs. simpl. intros [_ [= Heq]]. done.
Qed.

Lemma records_whole (bs : list byte) :
  (length bs `mod` 24 = 0)%nat →
  length bs = (24 * (length bs / 24))%nat.
Proof. intros Hmod. pose proof (Nat.div_mod (length bs) 24). lia. Qed.

(** X1. When the relocation section and the symbol table can be read and the
    section's length is a multiple of 24, [ParseRelocations] looks at every
    24-byte record in turn. If each record's symbol (and, for a section
    symbol, its section) can be looked up, it returns the addends of the
    records that point into the target section, in the order of the
    buffer, duplicates included; otherwise it panics with an index out of
    range. The read inside the loop never fails. *)
Theorem ParseRelocations_offsets f relSection section relsS rels symbols :
  elf.Section_by_name f relSection = Some relsS →
  elf.Data relsS = inr rels →
  (len rels `mod` 24 = 0)%nat →
  elf.Symbols f = inr symbols →
  let recs := records (elf.ByteOrder f) (bytes_of rels) in
  (Forall (resolves f symbols) recs →
   ParseRelocations f relSection section
   = Done (elf.r_Addend <$> filter (targets f symbols section) recs))
  ∧ (¬ Forall (resolves f symbols) recs →
     ParseRelocations f relSection section = Panic PanicIndex).
Proof.
  intros HS HD Hmod Hsym recs.
  unfold ParseRelocations. rewrite HS, HD.
  rewrite bool_decide_eq_false_2 by (by intros ?). rewrite Hsym.
  unfold NewReader, len, bytes_of in *.
  rewrite (rela_loop_spec f symbols section (length (shown rels) / 24))
    by (by apply records_whole || done).
  fold (records (elf.ByteOrder f) (shown rels)).
  split; intros Hall.
  - by rewrite bool_decide_eq_true_2.
  - by rewrite bool_decide_eq_false_2.
Qed.

(** X2. Symbol numbers count from one. A record whose symbol number
    ([Info >> 32]) is zero, or larger than the number of symbols, makes
    [ParseRelocations] panic with an index out of range: in
    [symbols[symNo-1]] the index zero minus one wraps around to 2^64 - 1. *)
Theorem ParseRelocations_bad_symbol f relSection section relsS rels symbols r :
  elf.Section_by_name f relSection = Some relsS →
  elf.Data relsS = inr rels →
  (len rels `mod` 24 = 0)%nat →
  elf.Symbols f = inr symbols →
  Z.of_nat (length symbols) < 2 ^ 64 →
  r ∈ records (elf.ByteOrder f) (bytes_of rels) →
  Z.shiftr (elf.r_Info r) 32 = 0
  ∨ Z.of_nat (length symbols) < Z.shiftr (elf.r_Info r) 32 < 2 ^ 64 →
  ParseRelocations f relSection section = Panic PanicIndex.
Proof.
  intros HS HD Hmod Hsym Hmax Hr Hno.
  unfold ParseRelocations. rewrite HS, HD.
  rewrite bool_decide_eq_false_2 by (by intros ?). rewrite Hsym.
  unfold NewReader, len, bytes_of in *.
  rewrite (rela_loop_spec f symbols section (length (shown rels) / 24))
    by (by apply records_whole || done).
  fold (records (elf.ByteOrder f) (shown rels)).
  rewrite bool_decide_eq_false_2; [done|]. intros Hall.
  rewrite Forall_forall in Hall. specialize (Hall r Hr).
  unfold resolves, symbol_of, index in Hall.
  assert (Z.of_nat (length symbols)
          <= Int.uint64_of (Z.shiftr (elf.r_Info r) 32 - 1)) as Hidx.
  { unfold Int.uint64_of. destruct Hno as [->|Hbig].
    - replace ((0 - 1) `mod` 2 ^ 64) with (2 ^ 64 - 1) by done. lia.
    - rewrite Z.mod_small by lia. lia. }
  rewrite bool_decide_eq_true_2 in Hall by lia.
  rewrite lookup_ge_None_2 in Hall by lia. done.
Qed.

(** ** More about one call of [Process] *)

Section More_Process_facts.
Context `{Host}.
Implicit Types (st : state) (data : slice).

(** The file-writing loop gets through a prefix of entries whose slices are
    in range and whose writes are taken, and goes on from there. *)
Lemma write_entries_prefix archbase data good : ∀ rest st,
  Forall (part_in_range data) good →
  accepts (world st) (entry_write archbase data <$> good) = true →
  write_entries archbase data (good ++ rest) st
  = write_entries archbase data rest
      (advance st (entry_write archbase data <$> good) (proc st)).
Proof.
  induction good as [|e good IH]; intros rest st Hin Hacc.
  - unfold advance. simpl. rewrite app_nil_r. by destruct st.
  - apply Forall_cons in Hin as [(Hlo & Hle & Hhi) Hin].
    cbn [app write_entries]. unfold bind at 1.
    rewrite reslice_in_range by done. simpl.
    unfold bind at 1, WriteFile_. simpl in Hacc.
    unfold entry_write at 1 in Hacc.
    unfold bytes_of at 1 2. simpl. fold (slice_bytes data e).
    unfold advance, entry_write at 1. simpl.
    destruct (ioutil_WriteFile _ _ _ _) as [w [err|]] eqn:Hw; [done|].
    unfold bind. simpl. rewrite IH by done.
    unfold advance. simpl. by rewrite <- app_assoc.
Qed.

(** [emit_archive] up to the file-writing loop. *)
Lemma emit_archive_unfold st data entries :
  emit_archive data entries st
  = match write_entries (archive_dir (proc st)) data entries
            (advance st [Mkdir (archive_dir (proc st)) 511] (proc st)) with
    | (Done _, st1) =>
      (Done (), mkState (world st1) (calls st1) (count_archive (proc st1)))
    | (Panic p, st1) => (Panic p, st1)
    end.
Proof.
  unfold emit_archive, bind, get_proc, Mkdir_, set_proc, advance. simpl.
  by destruct (write_entries _ _ _ _) as [[[]|p] st1].
Qed.

Lemma advance_advance st cs1 cs2 p1 p2 :
  advance (advance st cs1 p1) cs2 p2 = advance st (cs1 ++ cs2) p2.
Proof.
  unfold advance. simpl. rewrite <- app_assoc. f_equal.
  generalize (world st). induction cs1 as [|[name perm|name d perm] cs1 IH];
    intros w; simpl; auto.
Qed.

Lemma accepts_app (w : World) cs1 cs2 :
  accepts w (cs1 ++ cs2) = accepts w cs1 && accepts (after w cs1) cs2.
Proof.
  revert w. induction cs1 as [|[name perm|name d perm] cs1 IH]; intros w; simpl.
  - done.
  - apply IH.
  - destruct (ioutil_WriteFile name d perm w) as [w' [e|]]; simpl; [done|].
    apply IH.
Qed.

(** The payloads that are dropped are the rejected ones. *)
Lemma dropped_rejected st data : dropped st data ↔ rejected data.
Proof.
  split.
  - unfold dropped. intros HP. pose proof HP as Hstep.
    apply Process_step in Hstep as (_ & Hcase).
    destruct Hcase as [(_ & (ws & Hcalls & _) & _)
                      |[(_ & Hcalls & _)|(Hnacc & Hnwhole & _)]].
    + apply (f_equal length) in Hcalls. rewrite length_app in Hcalls.
      simpl in Hcalls. lia.
    + apply (f_equal length) in Hcalls. rewrite length_app in Hcalls.
      simpl in Hcalls. lia.
    + unfold rejected.
      destruct (decide (probes_as_archive data)) as [Hprobe|Hprobe].
      * destruct (decide (Count (header_of data) < 0)) as [Hneg|Hnneg].
        { rewrite Process_negative_count in HP by done. done. }
        destruct (decide (Count (header_of data) = 0)) as [H0|Hpos]; [tauto|].
        destruct (decide (some_entry_rejected data)) as [Hrej|Hnrej]; [tauto|].
        destruct Hnacc. split_and!; [done|lia|done].
      * right. right. split; [done|].
        destruct (decide (Z.of_nat (len data) < 128)); [done|].
        destruct Hnwhole. split; [done|lia].
  - intros [[Hp Hbad]|[[Hp H0]|[_ Hsmall]]].
    + by apply Process_entry_rejected.
    + by apply Process_zero_count.
    + by apply Process_small.
Qed.

(** X3. [Process] returns with nothing changed exactly for the rejected
    payloads: an entry cut short or pointing into the header and table, an
    empty table, or a non-archive payload shorter than 128 bytes. Every
    other payload leaves a trace or panics. *)
Theorem dropped_iff_rejected st data :
  Process data st = (Done (), st) ↔ rejected data.
Proof. apply dropped_rejected. Qed.

(** A call that panics leaves the [Processor] as it was. *)
Lemma Process_panic_proc st data p st' :
  Process data st = (Panic p, st') → proc st' = proc st.
Proof.
  destruct (decide (probes_as_archive data)) as [Hprobe|Hprobe].
  - destruct (decide (0 <= Count (header_of data))) as [Hcount|Hneg].
    + destruct (decide (accepted_archive data)) as [Hacc|Hnacc].
      * rewrite Process_accepted, emit_archive_unfold by done.
        match goal with |- context [write_entries ?a ?d ?es ?s] =>
          pose proof (write_entries_proc a d es s) as Hproc;
          destruct (write_entries a d es s) as [[[]|q] st1] end; [done|].
        simpl in Hproc. intros [= _ <-]. by rewrite Hproc.
      * assert (dropped st data) as ->; [|done].
        apply dropped_rejected. unfold rejected.
        destruct (decide (Count (header_of data) = 0)); [tauto|].
        destruct (decide (some_entry_rejected data)); [tauto|].
        destruct Hnacc. split_and!; [done|lia|done].
    + rewrite Process_negative_count by (done || lia). by intros [= _ <-].
  - destruct (decide (Z.of_nat (len data) < 128)) as [Hsmall|Hbig].
    + by rewrite (Process_small st data Hsmall).
    + rewrite Process_opaque by (done || lia).
      destruct (ioutil_WriteFile _ _ _ _) as [w [err|]]; [|done].
      by intros [= _ <-].
Qed.

(** X4. Whatever the payload and however the call ends, [Process] leaves
    [Destdir] alone, only appends to the log of calls and makes at most one
    directory. The counters stay as they were unless the call returns
    normally for an accepted archive (then only [archiveCounter] is
    stepped) or for a payload written whole (then only [wholeCounter] is
    stepped); a call that panics never steps a counter. *)
Theorem Process_frame st data :
  let r := Process data st in
  Destdir (proc r.2) = Destdir (proc st)
  ∧ (∃ new, calls r.2 = calls st ++ new ∧ (length (dirs_made new) <= 1)%nat)
  ∧ (proc r.2 = proc st
     ∨ (r.1 = Done () ∧ accepted_archive data
        ∧ proc r.2 = count_archive (proc st))
     ∨ (r.1 = Done () ∧ written_whole data
        ∧ proc r.2 = count_whole (proc st))).
Proof.
  intros r. destruct (Process data st) as [o st'] eqn:HP. subst r. simpl.
  pose proof (Process_step st data o st' HP) as (Hdest & Hcase).
  split; [done|].
  destruct Hcase as [(Hacc & (ws & Hcalls & Hws) & Hproc)
                    |[(Hwhole & Hcalls & _ & Hproc)|(_ & _ & ->)]].
  - split.
    + eexists. split; [done|]. simpl. rewrite Hws. simpl. lia.
    + destruct o as [[]|p].
      * right. left. auto.
      * left. by eapply Process_panic_proc.
  - split.
    + eexists. split; [done|]. simpl. lia.
    + destruct o as [[]|p].
      * right. right. auto.
      * left. by eapply Process_panic_proc.
  - split; [|by left]. exists []. rewrite app_nil_r. simpl. split; [done|lia].
Qed.

(** X5. What an aborted archive leaves behind. In an accepted archive whose
    first entries have slices in range and writes that are taken, and whose
    next entry has a slice out of range, [Process] makes the directory,
    writes the files of those first entries and then panics at the slice
    expression: the later entries are not written and the archive counter
    is not stepped. *)
Theorem archive_panic_leaves_partial st data good bad rest :
  accepted_archive data →
  entries_of data (Z.to_nat (Count (header_of data))) = good ++ bad :: rest →
  Forall (part_in_range data) good →
  ¬ part_in_range data bad →
  accepts (world st) (archive_calls st data good) = true →
  Process data st
  = (Panic PanicSliceBounds, advance st (archive_calls st data good) (proc st)).
Proof.
  intros Hacc Hsplit Hgood Hbad Haccepts.
  rewrite Process_accepted, emit_archive_unfold, Hsplit by done.
  unfold archive_calls in *. simpl in Haccepts.
  rewrite write_entries_prefix by done.
  cbn [write_entries]. unfold bind at 1.
  rewrite reslice_out_of_range by done. simpl.
  by rewrite advance_advance.
Qed.

(** X6. A whole-blob write that fails is fatal: [Process] panics with the
    error of [ioutil.WriteFile], the attempt is in the log, and the
    whole-blob counter is not stepped. *)
Theorem whole_write_failure_is_fatal st data w err :
  ¬ probes_as_archive data → 128 <= Z.of_nat (len data) →
  ioutil_WriteFile (whole_file (proc st)) (bytes_of data) 438 (world st)
  = (w, Some err) →
  Process data st
  = (Panic (PanicError err),
     mkState w (calls st ++ [whole_write st data]) (proc st)).
Proof.
  intros Hprobe Hlen Hw. rewrite Process_opaque by done. by rewrite Hw.
Qed.

(** X7. A failed write of an archive entry is fatal too. When the entries
    before it have been written and its own slice is in range but its write
    fails, [Process] panics with that error: the attempt is the last call
    in the log, no later entry is written and the archive counter is not
    stepped. *)
Theorem entry_write_failure_is_fatal st data good e rest w err :
  accepted_archive data →
  entries_of data (Z.to_nat (Count (header_of data))) = good ++ e :: rest →
  Forall (part_in_range data) good → part_in_range data e →
  accepts (world st) (archive_calls st data good) = true →
  ioutil_WriteFile (path_Join (archive_dir (proc st)) (entry_name e))
    (slice_bytes data e) 438 (after (world st) (archive_calls st data good))
  = (w, Some err) →
  Process data st
  = (Panic (PanicError err),
     mkState w
       (calls st ++ archive_calls st data good
        ++ [entry_write (archive_dir (proc st)) data e])
       (proc st)).
Proof.
  intros Hacc Hsplit Hgood (Hlo & Hle & Hhi) Haccepts Hw.
  rewrite Process_accepted, emit_archive_unfold, Hsplit by done.
  unfold archive_calls in *. simpl in Haccepts, Hw.
  rewrite write_entries_prefix by done.
  cbn [write_entries]. unfold bind at 1.
  rewrite reslice_in_range by done. simpl.
  unfold bind at 1, WriteFile_.
  unfold bytes_of at 1 2. simpl. fold (slice_bytes data e).
  match goal with |- context [ioutil_WriteFile ?a ?b ?c ?d] =>
    replace (ioutil_WriteFile a b c d) with (w, Some err) end.
  simpl. unfold entry_write at 2. f_equal. f_equal.
  by rewrite <- !app_assoc.
Qed.


(** X9. File names and ids stand for each other: two entries get the same
    file name exactly when they have the same id, and no entry gets the
    empty name. So within one archive directory two files collide only if
    the table repeats an id. *)
Theorem entry_name_identifies_id (e1 e2 : ArchiveEntry) :
  (entry_name e1 = entry_name e2 ↔ Id e1 = Id e2)
  ∧ entry_name e1 ≠ EmptyString.
Proof.
  split.
  - split; [apply entry_name_inj|].
    intros Heq. unfold entry_name. by rewrite Heq.
  - rewrite entry_name_spec.
    destruct (names !! Id e1) as [n|] eqn:Hn; [|done].
    by apply names_entry in Hn as (_ & Hne & _).
Qed.

(** X10. A payload shorter than 32768 bytes is never parsed as an archive,
    whatever its first bytes say: from 128 bytes on it is written whole
    when the file system takes the write, and no directory is made. *)
Theorem short_payload_is_never_an_archive st data :
  128 <= Z.of_nat (len data) < 32768 →
  accepts (world st) [whole_write st data] = true →
  ¬ accepted_archive data ∧ written_as_whole st data
  ∧ dirs_made (calls (Process data st).2) = dirs_made (calls st).
Proof.
  intros Hlen Haccepts.
  assert (¬ probes_as_archive data) as Hprobe.
  { unfold probes_as_archive. lia. }
  assert (written_as_whole st data) as Hw by (apply Process_whole; [done|lia|done]).
  split_and!; [by intros []|done|].
  rewrite Hw. unfold advance. simpl. rewrite dirs_made_app. simpl.
  by rewrite app_nil_r.
Qed.



(** The bytes a payload's classification looks at. *)
Lemma header_of_take data1 data2 :
  len data1 = len data2 →
  take 776 (bytes_of data1) = take 776 (bytes_of data2) →
  header_of data1 = header_of data2.
Proof.
  intros Hlen Htake.
  assert (take 8 (bytes_of data1) = take 8 (bytes_of data2)) as H8eq.
  { replace (take 8 (bytes_of data1)) with (take 8 (take 776 (bytes_of data1)))
      by (by rewrite take_take).
    rewrite Htake. by rewrite take_take. }
  unfold header_of, Read_header, NewReader, read_full.
  unfold len, bytes_of in *. rewrite <- Hlen.
  case_decide as H8; [|done]. simpl. by rewrite H8eq.
Qed.

Lemma entry_at_take data1 data2 (i : nat) :
  (i < 64)%nat →
  take 776 (bytes_of data1) = take 776 (bytes_of data2) →
  entry_at data1 i = entry_at data2 i.
Proof.
  intros Hi Htake. unfold entry_at.
  rewrite !take_drop_commute.
  replace (take (8 + 12 * i + 12) (bytes_of data1))
    with (take (8 + 12 * i + 12) (take 776 (bytes_of data1)))
    by (rewrite take_take; f_equal; lia).
  rewrite Htake, take_take. do 3 f_equal. lia.
Qed.

(** X12. The classification of a payload depends only on its length and
    its first 776 bytes (the header and room for 64 entries): two payloads
    that agree on these are both accepted as archives, both rejected or
    both written whole. *)
Theorem classification_reads_the_front data1 data2 :
  len data1 = len data2 →
  take 776 (bytes_of data1) = take 776 (bytes_of data2) →
  header_of data1 = header_of data2
  ∧ (accepted_archive data1 ↔ accepted_archive data2)
  ∧ (rejected data1 ↔ rejected data2)
  ∧ (written_whole data1 ↔ written_whole data2).
Proof.
  intros Hlen Htake.
  pose proof (header_of_take data1 data2 Hlen Htake) as Hhdr.
  assert (probes_as_archive data1 ↔ probes_as_archive data2) as Hprobe.
  { unfold probes_as_archive. by rewrite Hhdr, Hlen. }
  assert (probes_as_archive data1 →
          (some_entry_rejected data1 ↔ some_entry_rejected data2)) as Hsome.
  { intros (_ & _ & Hmax). unfold some_entry_rejected, entry_rejected.
    rewrite <- Hhdr, <- Hlen.
    split; intros (i & Hi & Hrej); exists i; (split; [done|]).
    - by rewrite <- (entry_at_take data1 data2 i) by (lia || done).
    - by rewrite (entry_at_take data1 data2 i) by (lia || done). }
  split_and!; [done|..].
  - unfold accepted_archive. rewrite <- Hhdr. split.
    + intros (Hp & Hc & Hn). split_and!; [tauto|done|]. by rewrite <- Hsome.
    + intros (Hp & Hc & Hn). split_and!; [tauto|done|].
      rewrite Hsome; tauto.
  - unfold rejected. rewrite <- Hhdr, <- Hlen. split.
    + intros [[Hp Hs]|[[Hp H0]|[Hp Hl]]]; [left|right; left|right; right];
        (split; [tauto|]); [|done..]. by rewrite <- Hsome.
    + intros [[Hp Hs]|[[Hp H0]|[Hp Hl]]]; [left|right; left|right; right];
        (split; [tauto|]); [|done..]. rewrite Hsome; tauto.
  - unfold written_whole. by rewrite Hprobe, Hlen.
Qed.

(** X13. The spare capacity of a payload's slice matters for accepted
    archives only: two slices that show the same bytes are treated alike by
    [Process] (same outcome, same calls, same state) unless they are
    accepted as archives, where the entries' slice expressions are checked
    against the capacity. *)
Theorem spare_capacity_matters_for_archives_only st data1 data2 :
  bytes_of data1 = bytes_of data2 →
  ¬ accepted_archive data1 →
  Process data1 st = Process data2 st.
Proof.
  destruct data1 as [s sp1], data2 as [s' sp2]. unfold bytes_of. simpl.
  intros <- Hna.
  set (d1 := Slice s sp1) in *. set (d2 := Slice s sp2).
  destruct (decide (probes_as_archive d1)) as [Hprobe|Hprobe].
  - destruct (decide (Count (header_of d1) < 0)) as [Hneg|Hnneg].
    + rewrite (Process_negative_count st d1 Hprobe Hneg).
      by rewrite (Process_negative_count st d2 Hprobe Hneg).
    + assert (rejected d1) as Hrej.
      { unfold rejected.
        destruct (decide (Count (header_of d1) = 0)); [tauto|].
        destruct (decide (some_entry_rejected d1)); [tauto|].
        destruct Hna. split_and!; [done|lia|done]. }
      pose proof (proj2 (dropped_rejected st d1) Hrej) as ->.
      symmetry. by apply (dropped_rejected st d2).
  - destruct (decide (Z.of_nat (len d1) < 128)) as [Hsmall|Hbig].
    + rewrite (Process_small st d1 Hsmall).
      by rewrite (Process_small st d2 Hsmall).
    + rewrite (Process_opaque st d1) by (done || lia).
      by rewrite (Process_opaque st d2) by (done || unfold len in *; simpl in *; lia).
Qed.



End More_Process_facts.

(** ** More about the loop of [main] *)

Section More_main_facts.
Context `{Host}.
Implicit Types (st : state) (rodata : slice).

Lemma for_each_unsliceable rodata : ∀ ranges st,
  Exists (λ r : Z * Z, reslice rodata r.1 r.2 = None) ranges →
  ∃ p, (for_each (process_segment rodata) ranges st).1 = Panic p.
Proof.
  induction ranges as [|r ranges IH]; intros st Hex.
  - by apply Exists_nil in Hex.
  - cbn [for_each]. unfold bind at 1, process_segment at 1, bind at 1.
    unfold from_option.
    destruct (reslice rodata r.1 r.2) as [seg|] eqn:Hseg; simpl.
    2:{ by eexists. }
    apply Exists_cons in Hex as [Hr|Hex]; [congruence|].
    destruct (flate_ReadAll (bytes_of seg)) as [e|data]; simpl.
    + by apply IH.
    + destruct (Process data st) as [[[]|p] st1]; simpl; [by apply IH|].
      by eexists.
Qed.

(** X15. The slice expression [rodata[prev:off]] is not guarded. When one of
    the ranges that pass the length test does not lie within the section's
    data (a negative start, or an end beyond the capacity), the loop of
    [main] cannot complete: the run ends in a panic, at that range or
    before it. *)
Theorem out_of_section_range_is_fatal rodata offsets st :
  Exists (λ r : Z * Z, r.1 < 0 ∨ Z.of_nat (cap rodata) < r.2) (segments offsets) →
  ∃ p, (segment_loop rodata offsets 0 offsets st).1 = Panic p.
Proof.
  intros Hex. rewrite segment_loop_segments. apply for_each_unsliceable.
  eapply Exists_impl; [exact Hex|]. intros [a b] Hout. simpl in *.
  apply reslice_out_of_range. lia.
Qed.

(** X16. All of [main]. When the two arguments are there, the object file
    opens, [.rodata] can be read and [ParseRelocations] returns offsets that
    lie within the section, [main] is the run of [Process], in order, over
    the payloads that inflate from the Segmenter's ranges, started with
    [Destdir] set to the second argument and both counters at zero. Nothing
    is written before that, and no range panics in the slice expression. *)
Theorem main_runs_Process_over_segments
    Args kernel_f destdir f rodataS rodata relocs st :
  Args !! 1%nat = Some kernel_f → Args !! 2%nat = Some destdir →
  elf_Open kernel_f (world st) = inr f →
  elf.Section_by_name f ".rodata" = Some rodataS →
  elf.Data rodataS = inr rodata →
  ParseRelocations f ".rela.rodata" ".rodata" = Done relocs →
  Forall (λ o, 0 <= o <= Z.of_nat (len rodata)) relocs →
  Z.of_nat (len rodata) <= Int.max_int64 →
  main Args st
  = process_all (payloads_of rodata (Segmenter relocs (Z.of_nat (len rodata))))
      (mkState (world st) (calls st) (mkProcessor destdir 0 0)).
Proof. apply main_is_run. Qed.

(** X17. A panic of [ParseRelocations] (an odd section length, a symbol that
    cannot be looked up, an unreadable symbol table) is a panic of [main],
    raised before the [Processor] is made: the world, the log and the state
    are untouched, so nothing has been written. *)
Theorem main_aborts_on_bad_relocations
    Args kernel_f destdir f rodataS rodata p st :
  Args !! 1%nat = Some kernel_f → Args !! 2%nat = Some destdir →
  elf_Open kernel_f (world st) = inr f →
  elf.Section_by_name f ".rodata" = Some rodataS →
  elf.Data rodataS = inr rodata →
  ParseRelocations f ".rela.rodata" ".rodata" = Panic p →
  main Args st = (Panic p, st).
Proof.
  intros Hk Hd Hopen Hsec Hdata Hrel.
  unfold main. rewrite Hk, Hd. unfold bind at 1. simpl.
  unfold bind at 1, Open_. rewrite Hopen.
  unfold bind at 1. simpl. rewrite Hsec.
  unfold bind at 1. simpl. rewrite Hdata.
  unfold bind at 1. simpl. rewrite Hrel.
  by unfold bind at 1, lift.
Qed.

End More_main_facts.

(** ** More about the Segmenter *)

(** X18. The ranges do not depend on the order in which the relocations are
    listed: two lists of offsets that are permutations of each other give
    the same ranges, in the same order. *)
Theorem Segmenter_ignores_order relocs1 relocs2 sectionLen :
  relocs1 ≡ₚ relocs2 →
  Segmenter relocs1 sectionLen = Segmenter relocs2 sectionLen.
Proof.
  intros Hperm. unfold Segmenter. f_equal.
  apply sort_Slice_unique.
  - apply Sorted_merge_sort; apply _.
  - by rewrite sort_Slice_perm, Hperm.
Qed.





(** ** The byte layout [binary.Read] decodes *)

Lemma u8_of_Z x :
  0 <= x < 256 → Binary.u8 (default x00 (Byte.of_N (Z.to_N x))) = x.
Proof.
  intros Hx. unfold Binary.u8.
  destruct (Byte.of_N (Z.to_N x)) as [b|] eqn:Hb; simpl.
  - apply Byte.to_of_N in Hb. rewrite Hb. lia.
  - apply Byte.of_N_None_iff in Hb. lia.
Qed.

Lemma lor_byte a x :
  0 <= a < 256 → Z.lor a (Z.shiftl x 8) = a + 256 * x.
Proof.
  intros Ha. rewrite <- Z.add_nocarry_lor.
  - rewrite Z.shiftl_mul_pow2 by lia. lia.
  - apply Z.bits_inj'. intros n Hn. rewrite Z.land_spec, Z.bits_0.
    destruct (decide (n < 8)).
    + rewrite Z.shiftl_spec_low by lia. apply andb_false_r.
    + replace a with (a `mod` 2 ^ 8) by (apply Z.mod_small; lia).
      rewrite Z.mod_pow2_bits_high by lia. done.
Qed.

Lemma le_uint_le32 n : Binary.le_uint (Examples.le32 n) = n `mod` 2 ^ 32.
Proof.
  unfold Examples.le32. cbn [fmap list_fmap Binary.le_uint].
  assert (0 <= n `mod` 2 ^ 32 < 2 ^ 32) as Hm by (apply Z.mod_pos_bound; lia).
  generalize dependent (n `mod` 2 ^ 32). intros m Hm.
  rewrite !u8_of_Z by (apply Z.mod_pos_bound; lia).
  rewrite !lor_byte by (apply Z.mod_pos_bound; lia).
  change (2 ^ (8 * 0)) with 1. change (2 ^ (8 * 1)) with 256.
  change (2 ^ (8 * 2)) with 65536. change (2 ^ (8 * 3)) with 16777216.
  change (2 ^ 32) with 4294967296 in Hm.
  Z.div_mod_to_equations. lia.
Qed.

Lemma field_le32 k front n rest :
  length front = (4 * k)%nat → Int.is_int32 n →
  field k (front ++ Examples.le32 n ++ rest) = n.
Proof.
  intros Hfront Hn. unfold field.
  rewrite drop_app_length' by done.
  rewrite take_app_length' by done.
  unfold Binary.int32_at. cbn [Binary.uint_of]. rewrite le_uint_le32.
  unfold Int.is_int32 in Hn. unfold Int.int32_of.
  change (2 ^ 31) with 2147483648 in *. change (2 ^ 32) with 4294967296.
  Z.div_mod_to_equations. lia.
Qed.

(** X20. The archive's tables are little-endian two's-complement 32-bit
    fields in the order magic, count and id, length, offset: reading a
    header or an entry off bytes laid out that way gives back the fields
    and leaves the reader just after them. *)
Theorem tables_are_little_endian a b c rest :
  Int.is_int32 a → Int.is_int32 b → Int.is_int32 c →
  Read_header (Examples.header a b ++ rest) = Some (mkHeader a b, rest)
  ∧ Read_entry (Examples.entry a b c ++ rest)
    = Some (mkEntry a b c, rest).
Proof.
  intros Ha Hb Hc. split.
  - unfold Read_header, Examples.header.
    rewrite read_full_enough by (rewrite !length_app; simpl; lia).
    cbn [fmap option_fmap option_map prod_map fst snd id].
    rewrite drop_app_length' by done.
    rewrite <- !app_assoc.
    f_equal. f_equal. unfold decode_header.
    rewrite !field_take by lia.
    rewrite (field_le32 0 [] a _ eq_refl Ha : field 0 (Examples.le32 a ++ _) = a).
    rewrite (field_le32 1 (Examples.le32 a) b) by done. done.
  - unfold Read_entry, Examples.entry.
    rewrite read_full_enough by (rewrite !length_app; simpl; lia).
    cbn [fmap option_fmap option_map prod_map fst snd id].
    rewrite drop_app_length' by done.
    rewrite <- !app_assoc.
    f_equal. f_equal. rewrite decode_entry_take. unfold decode_entry.
    rewrite (field_le32 0 [] a _ eq_refl Ha : field 0 (Examples.le32 a ++ _) = a).
    rewrite (field_le32 1 (Examples.le32 a) b) by done.
    rewrite (app_assoc (Examples.le32 a) (Examples.le32 b)).
    rewrite (field_le32 2 (Examples.le32 a ++ Examples.le32 b) c) by done.
    done.
Qed.

Section Inflate_failures.
Context `{Host}.

(** X21. Data that does not inflate is passed over without a word. When the
    object file opens and its sections read as for a normal run, but none
    of the ranges inflates, [main] returns normally: nothing is written, no
    directory is made, and the only change is the new [Processor] with
    both counters at zero. *)
Theorem nothing_inflates_nothing_written
    Args kernel_f destdir f rodataS rodata relocs (st : state) :
  Args !! 1%nat = Some kernel_f → Args !! 2%nat = Some destdir →
  elf_Open kernel_f (world st) = inr f →
  elf.Section_by_name f ".rodata" = Some rodataS →
  elf.Data rodataS = inr rodata →
  ParseRelocations f ".rela.rodata" ".rodata" = Done relocs →
  Forall (λ o, 0 <= o <= Z.of_nat (len rodata)) relocs →
  Z.of_nat (len rodata) <= Int.max_int64 →
  Forall (λ r : Z * Z, ∀ seg, reslice rodata r.1 r.2 = Some seg →
            ∃ e, flate_ReadAll (bytes_of seg) = inl e)
         (Segmenter relocs (Z.of_nat (len rodata))) →
  main Args st
  = (Done (), mkState (world st) (calls st) (mkProcessor destdir 0 0)).
Proof.
  intros Hk Hd Hopen Hsec Hdata Hrel Hrelocs Hmax Hfail.
  rewrite (main_is_run Args kernel_f destdir f rodataS rodata relocs st)
    by done.
  assert (payloads_of rodata (Segmenter relocs (Z.of_nat (len rodata))) = [])
    as ->; [|done].
  unfold payloads_of.
  induction Hfail as [|r ranges Hr _ IH]; [done|].
  cbn [omap list_omap]. rewrite IH.
  destruct (reslice rodata r.1 r.2) as [seg|] eqn:Hseg; [|done].
  destruct (Hr seg eq_refl) as [e He]. simpl. by rewrite He.
Qed.

End Inflate_failures.

(** * The claims on example payloads *)

Import Examples.

(** Closed decidable statements are settled by evaluation. *)
Local Ltac by_evaluation := compute_done.

Lemma opaque_size_boundary_witness :
  (Z.of_nat (len (blob 127)) = 127 ∧ dropped st0 (blob 127))
  ∧ (Z.of_nat (len (blob 128)) = 128
     ∧ accepts (world st0) [whole_write st0 (blob 128)] = true
     ∧ written_as_whole st0 (blob 128)
     ∧ wholeCounter (proc (Process (blob 128) st0).2) = 1).
Proof.
  destruct (opaque_size_boundary st0 (blob 127)) as [H127 _].
  destruct (opaque_size_boundary st0 (blob 128)) as [_ H128].
  split.
  - split; [by_evaluation|]. apply H127. by_evaluation.
  - destruct H128 as (_ & Hw & Hc & _); [by_evaluation..|].
    split_and!; [by_evaluation..|exact Hw|exact Hc].
Defined.

Lemma negative_count_panics_witness :
  32768 <= Z.of_nat (len negative_count)
  ∧ Magic (header_of negative_count) = 0
  ∧ Count (header_of negative_count) < 0
  ∧ Process negative_count st0 = (Panic PanicMakeSlice, st0).
Proof.
  split_and!; [by_evaluation..|].
  apply (negative_count_panics st0 negative_count); by_evaluation.
Defined.

Lemma rejected_leaves_no_trace_witness :
  rejected bad_offset ∧ Process bad_offset st0 = (Done (), st0).
Proof.
  split; [by_evaluation|].
  apply (rejected_leaves_no_trace st0 bad_offset). by_evaluation.
Defined.

(** C1 as the spec has it fails on [bad_offset]: the payload enters archive
    parsing, its entry's offset is below [8 + 12*count], it has well over
    128 bytes and the file system would take the write, and yet [Process]
    returns with nothing written at all: no whole-blob file. *)
Lemma bad_offset_not_written_whole :
  probes_as_archive bad_offset
  ∧ Z.of_nat 0 < Count (header_of bad_offset)
  ∧ Offset (entry_at bad_offset 0) < 8 + 12 * Count (header_of bad_offset)
  ∧ 128 <= Z.of_nat (len bad_offset)
  ∧ accepts (world st0) [whole_write st0 bad_offset] = true
  ∧ Process bad_offset st0 = (Done (), st0)
  ∧ calls st0 = []
  ∧ ¬ written_as_whole st0 bad_offset.
Proof.
  assert (dropped st0 bad_offset) as Hd.
  { apply Process_entry_rejected; by_evaluation. }
  split_and!; [by_evaluation..|exact Hd|done|by apply dropped_not_written].
Qed.

Lemma bad_offset_drops_payload_witness :
  probes_as_archive bad_offset
  ∧ Z.of_nat 0 < Count (header_of bad_offset)
  ∧ Offset (entry_at bad_offset 0) < 8 + 12 * Count (header_of bad_offset)
  ∧ dropped st0 bad_offset.
Proof.
  split_and!; [by_evaluation..|].
  apply (bad_offset_drops_payload st0 bad_offset 0); by_evaluation.
Defined.

(** C2 as the spec has it fails on [empty_table]: magic and count are zero,
    the payload has 32768 bytes and the file system would take the write,
    and yet [Process] returns with nothing written: no whole-blob file. *)
Lemma empty_table_not_written_whole :
  Magic (header_of empty_table) = 0 ∧ Count (header_of empty_table) = 0
  ∧ 128 <= Z.of_nat (len empty_table)
  ∧ accepts (world st0) [whole_write st0 empty_table] = true
  ∧ Process empty_table st0 = (Done (), st0)
  ∧ calls st0 = []
  ∧ ¬ written_as_whole st0 empty_table.
Proof.
  assert (dropped st0 empty_table) as Hd.
  { apply Process_zero_count; by_evaluation. }
  split_and!; [by_evaluation..|exact Hd|done|by apply dropped_not_written].
Qed.

Lemma header_rejection_witness :
  (Count (header_of empty_table) = 0 ∨ Count (header_of empty_table) > 64
   ∨ Magic (header_of empty_table) ≠ 0)
  ∧ probes_as_archive empty_table
  ∧ dropped st0 empty_table.
Proof.
  assert (Count (header_of empty_table) = 0 ∨ Count (header_of empty_table) > 64
          ∨ Magic (header_of empty_table) ≠ 0) as Hhdr by by_evaluation.
  assert (probes_as_archive empty_table) as Hprobe by by_evaluation.
  split_and!; [done..|].
  destruct (header_rejection st0 empty_table Hhdr) as (_ & _ & _ & Hd & _).
  by apply Hd.
Defined.

(** C8 as the spec has it fails on [overrun_spare]: an accepted archive whose
    entry ends one byte past the payload, in a slice with one spare byte of
    capacity. [Process] does not panic: it makes the directory, writes
    32749 bytes, the last of them the spare byte, and steps the counter. *)
Lemma overrun_within_capacity_not_caught :
  accepted_archive overrun_spare
  ∧ Z.of_nat 0 < Count (header_of overrun_spare)
  ∧ Z.of_nat (len overrun_spare)
    < Offset (entry_at overrun_spare 0) + Length (entry_at overrun_spare 0)
  ∧ (Process overrun_spare st0).1 = Done ()
  ∧ summary (calls (Process overrun_spare st0).2)
    = [("out/archive_00", 0, None);
       ("out/archive_00/sw_method_init", 32749, Some xff)]
  ∧ archiveCounter (proc (Process overrun_spare st0).2) = 1.
Proof. split_and!; by_evaluation. Qed.

Lemma slice_out_of_range_panics_witness :
  (accepted_archive overrun_exact
   ∧ Z.of_nat 0 < Count (header_of overrun_exact)
   ∧ Z.of_nat (cap overrun_exact)
     < Offset (entry_at overrun_exact 0) + Length (entry_at overrun_exact 0)
   ∧ ∃ p st', Process overrun_exact st0 = (Panic p, st')
              ∧ archiveCounter (proc st') = archiveCounter (proc st0)
              ∧ wholeCounter (proc st') = wholeCounter (proc st0))
  ∧ (accepted_archive overrun_spare
     ∧ Forall (fits_capacity overrun_spare) (entries_of overrun_spare 1)
     ∧ accepts (world st0) (archive_calls st0 overrun_spare
                              (entries_of overrun_spare 1)) = true
     ∧ (Process overrun_spare st0).1 = Done ()).
Proof.
  split.
  - split_and!; [by_evaluation..|].
    destruct (slice_out_of_range_panics st0 overrun_exact) as [Hpanic _];
      [by_evaluation|].
    apply (Hpanic 0%nat); [by_evaluation|]. right. left. by_evaluation.
  - split_and!; [by_evaluation..|].
    destruct (slice_out_of_range_panics st0 overrun_spare) as [_ Hdone];
      [by_evaluation|].
    rewrite Hdone; [done|by_evaluation..].
Defined.


Lemma counters_number_outputs_witness :
  proc st0 = mkProcessor "out" 0 0
  ∧ Z.of_nat (length seven) < 2 ^ 63
  ∧ (process_all seven st0).1 = Done ()
  ∧ dirs_made (calls (process_all seven st0).2)
    = ["out/archive_00"; "out/archive_01"]
  ∧ archiveCounter (proc (process_all seven st0).2) = 2
  ∧ wholeCounter (proc (process_all seven st0).2) = 2.
Proof.
  assert ((process_all seven st0).1 = Done ()) as Hdone by by_evaluation.
  assert (process_all seven st0 = (Done (), (process_all seven st0).2)) as Hrun.
  { rewrite <- Hdone. apply surjective_pairing. }
  destruct (counters_number_outputs "out" seven st0 _ eq_refl
              ltac:(by_evaluation) Hrun) as (Hdirs & Ha & Hw & _).
  split_and!; [by_evaluation..|exact Hdone| | |].
  - rewrite Hdirs. by_evaluation.
  - rewrite Ha. by_evaluation.
  - rewrite Hw. by_evaluation.
Defined.

Lemma odd_relocation_length_is_fatal_witness :
  elf.Section_by_name odd_file ".rela.rodata"
  = Some (elf.mkSection ".rela.rodata" (inr (exact (replicate 25 x00))))
  ∧ (25 `mod` 24 ≠ 0)%nat
  ∧ ParseRelocations odd_file ".rela.rodata" ".rodata"
    = Panic (PanicError (unexpected_length ".rela.rodata" 25)).
Proof.
  split_and!; [by_evaluation..|].
  by apply (odd_relocation_length_is_fatal odd_file ".rela.rodata" ".rodata"
              (elf.mkSection ".rela.rodata" (inr (exact (replicate 25 x00))))
              (exact (replicate 25 x00))).
Defined.


(** * The further properties on examples *)

Import Objects Faults.

Lemma ParseRelocations_offsets_witness :
  (length relocations `mod` 24 = 0)%nat
  ∧ Forall (resolves good_kernel symtab)
      (records Binary.LittleEndian relocations)
  ∧ ParseRelocations good_kernel ".rela.rodata" ".rodata"
    = Done [150; 0; 150].
Proof.
  destruct (ParseRelocations_offsets good_kernel ".rela.rodata" ".rodata"
              (elf.mkSection ".rela.rodata" (inr (exact relocations)))
              (exact relocations) symtab) as [Hok _];
    [reflexivity | reflexivity | by_evaluation | reflexivity |].
  split_and!; [by_evaluation..|].
  rewrite Hok; [|by_evaluation]. vm_compute. reflexivity.
Defined.

Lemma ParseRelocations_bad_symbol_witness :
  records Binary.LittleEndian (rela 0 0 1 150 ++ relocations) !! 0%nat
  = Some (elf.mkRela64 0 1 150)
  ∧ Z.shiftr 1 32 = 0
  ∧ ParseRelocations bad_kernel ".rela.rodata" ".rodata" = Panic PanicIndex.
Proof.
  assert (records Binary.LittleEndian (rela 0 0 1 150 ++ relocations) !! 0%nat
          = Some (elf.mkRela64 0 1 150)) as Hfirst
    by (vm_compute; reflexivity).
  split_and!; [exact Hfirst | reflexivity |].
  apply (ParseRelocations_bad_symbol bad_kernel ".rela.rodata" ".rodata"
           (elf.mkSection ".rela.rodata"
              (inr (exact (rela 0 0 1 150 ++ relocations))))
           (exact (rela 0 0 1 150 ++ relocations)) symtab
           (elf.mkRela64 0 1 150));
    [reflexivity | reflexivity | by_evaluation | reflexivity | by_evaluation
    | | left; reflexivity].
  eapply list_elem_of_lookup_2. exact Hfirst.
Defined.

Lemma archive_panic_leaves_partial_witness :
  accepted_archive second_overruns
  ∧ entries_of second_overruns 2 = [mkEntry 5 4 32; mkEntry 40 8 32765]
  ∧ (Process second_overruns st0).1 = Panic PanicSliceBounds
  ∧ summary (calls (Process second_overruns st0).2)
    = [("out/archive_00", 0, None); ("out/archive_00/sw_ctx", 4, Some x00)]
  ∧ proc (Process second_overruns st0).2 = proc st0.
Proof.
  assert (Process second_overruns st0
          = (Panic PanicSliceBounds,
             advance st0 (archive_calls st0 second_overruns [mkEntry 5 4 32])
               (proc st0))) as HP.
  { apply (archive_panic_leaves_partial st0 second_overruns
             [mkEntry 5 4 32] (mkEntry 40 8 32765) []); by_evaluation. }
  split_and!; [by_evaluation..| | |]; rewrite HP.
  - done.
  - by_evaluation.
  - done.
Defined.

Lemma whole_write_failure_is_fatal_witness :
  ¬ probes_as_archive (blob 128)
  ∧ Process (blob 128) (room 0)
    = (Panic (PanicError "no space left on device"),
       @mkState full_host 0%nat
         [WriteFile "out/whole_000" (replicate 128 x2a) 438]
         (mkProcessor "out" 0 0)).
Proof.
  split; [by_evaluation|].
  apply (whole_write_failure_is_fatal (room 0) (blob 128));
    [by_evaluation | by_evaluation | reflexivity].
Defined.

Lemma entry_write_failure_is_fatal_witness :
  accepted_archive two_entries
  ∧ accepts (world (room 1))
      (archive_calls (room 1) two_entries [mkEntry 5 4 32]) = true
  ∧ (Process two_entries (room 1)).1
    = Panic (PanicError "no space left on device")
  ∧ summary (calls (Process two_entries (room 1)).2)
    = [("out/archive_00", 0, None); ("out/archive_00/sw_ctx", 4, Some x00);
       ("out/archive_00/unk40", 8, Some x00)]
  ∧ proc (Process two_entries (room 1)).2 = proc (room 1).
Proof.
  pose proof (entry_write_failure_is_fatal (room 1) two_entries
                [mkEntry 5 4 32] (mkEntry 40 8 100) [] 0%nat
                "no space left on device"
                ltac:(by_evaluation) ltac:(by_evaluation) ltac:(by_evaluation)
                ltac:(by_evaluation) ltac:(by_evaluation) eq_refl) as HP.
  split_and!; [by_evaluation..| | |]; rewrite HP.
  - done.
  - by_evaluation.
  - done.
Defined.


Lemma short_payload_is_never_an_archive_witness :
  header_of short_archive = mkHeader 0 1
  ∧ entry_at short_archive 0 = mkEntry 7 3 20
  ∧ ¬ accepted_archive short_archive
  ∧ written_as_whole st0 short_archive
  ∧ dirs_made (calls (Process short_archive st0).2) = [].
Proof.
  destruct (short_payload_is_never_an_archive st0 short_archive)
    as (Hnot & Hwhole & Hdirs); [by_evaluation..|].
  split_and!; [by_evaluation..|exact Hnot|exact Hwhole|exact Hdirs].
Defined.


Lemma classification_reads_the_front_witness :
  last (bytes_of two_entries) = Some x00
  ∧ last (bytes_of other_tail) = Some xff
  ∧ accepted_archive two_entries ∧ accepted_archive other_tail.
Proof.
  destruct (classification_reads_the_front two_entries other_tail)
    as (_ & Hacc & _); [by_evaluation..|].
  assert (accepted_archive two_entries) as Htwo by by_evaluation.
  split_and!; [by_evaluation..|exact Htwo|by apply Hacc].
Defined.

Lemma spare_capacity_matters_for_archives_only_witness :
  cap (blob 200) ≠ cap roomy_blob
  ∧ Process (blob 200) st0 = Process roomy_blob st0.
Proof.
  split; [by_evaluation|].
  apply (spare_capacity_matters_for_archives_only st0 (blob 200) roomy_blob);
    by_evaluation.
Defined.


Lemma out_of_section_range_is_fatal_witness :
  segments [400] = [(0, 400)]
  ∧ cap (blob 300) = 300%nat
  ∧ ∃ p, (segment_loop (blob 300) [400] 0 [400] st0).1 = Panic p.
Proof.
  split_and!; [by_evaluation..|].
  apply (out_of_section_range_is_fatal (blob 300) [400] st0). by_evaluation.
Defined.

Lemma main_runs_Process_over_segments_witness :
  Segmenter [150; 0; 150] 300 = [(0, 150); (150, 300)]
  ∧ (main Args (boot good_kernel)).1 = Done ()
  ∧ summary (calls (main Args (boot good_kernel)).2)
    = [("out/whole_000", 150, Some x2a); ("out/whole_001", 150, Some x2a)]
  ∧ proc (main Args (boot good_kernel)).2 = mkProcessor "out" 0 2.
Proof.
  pose proof (main_runs_Process_over_segments Args "nv-kernel.o" "out"
                good_kernel
                (elf.mkSection ".rodata" (inr (exact (replicate 300 x2a))))
                (exact (replicate 300 x2a)) [150; 0; 150] (boot good_kernel)
                eq_refl eq_refl eq_refl eq_refl eq_refl
                ltac:(vm_compute; reflexivity)
                ltac:(by_evaluation) ltac:(by_evaluation)) as Hmain.
  split_and!; [by_evaluation| | |]; rewrite Hmain.
  - by_evaluation.
  - by_evaluation.
  - by_evaluation.
Defined.

Lemma main_aborts_on_bad_relocations_witness :
  main Args (boot odd_file)
  = (Panic (PanicError (unexpected_length ".rela.rodata" 25)), boot odd_file).
Proof.
  apply (main_aborts_on_bad_relocations Args "nv-kernel.o" "out" odd_file
           (elf.mkSection ".rodata" (inr (exact (replicate 64 x00))))
           (exact (replicate 64 x00)));
    [reflexivity..| vm_compute; reflexivity].
Defined.

Lemma Segmenter_ignores_order_witness :
  Segmenter [100; 40; 300] 500 = Segmenter [300; 100; 40] 500.
Proof. apply Segmenter_ignores_order. by_evaluation. Defined.


Lemma tables_are_little_endian_witness :
  entry (-1) 2 32765 = [xff; xff; xff; xff; x02; x00; x00; x00;
                        xfd; x7f; x00; x00]
  ∧ Read_entry (entry (-1) 2 32765 ++ [x2a])
    = Some (mkEntry (-1) 2 32765, [x2a]).
Proof.
  split; [by_evaluation|].
  apply (tables_are_little_endian (-1) 2 32765 [x2a]); by_evaluation.
Defined.

Lemma nothing_inflates_nothing_written_witness :
  Segmenter [150; 0; 150] 300 = [(0, 150); (150, 300)]
  ∧ main Args (garbled good_kernel)
    = (Done (), @mkState (garbled_host good_kernel) ∅ []
                  (mkProcessor "out" 0 0)).
Proof.
  split; [by_evaluation|].
  apply (nothing_inflates_nothing_written Args "nv-kernel.o" "out" good_kernel
           (elf.mkSection ".rodata" (inr (exact (replicate 300 x2a))))
           (exact (replicate 300 x2a)) [150; 0; 150] (garbled good_kernel)
           eq_refl eq_refl eq_refl eq_refl eq_refl
           ltac:(vm_compute; reflexivity)
           ltac:(by_evaluation) ltac:(by_evaluation)).
  apply Forall_forall. intros r _ seg _. eexists. reflexivity.
Defined.
